(** * pyoptools: surface propagation contracts

    A shallow embedding of three surface classes of pyoptools'
    [raytrace.surface] package,

    - [IdealSurface]  (pyoptools/raytrace/surface/idealsurface.pyx),
    - [SimpleDMD]     (pyoptools/raytrace/surface/simpledmd.pyx),
    - [OpticalStop]   (the optical stops definition module),

    together with the properties of their intersection, normal and
    propagate operations.

    C [double]s are Rocq's primitive binary64 floats, so NaN, signed zeros,
    rounding and the comparisons [==], [<], [>] behave as they do in the
    compiled code; where a property holds within floating tolerance only, it
    is stated on the real values the doubles stand for ([double_value]).
    C [int]s wrap at 32 bits.  Python exceptions are an explicit outcome of
    the functions that can raise. *)

From Stdlib Require Import ZArith List String Bool Lia Relations.
From Stdlib Require Import Reals Lra.
From Stdlib Require Import Floats.
Import ListNotations.

Set Warnings "-register-all".
Local Open Scope float_scope.

(** ** Python outcomes *)

Inductive PyExc : Type :=
| ValueError
| ZeroDivisionError.

Inductive result (A : Type) : Type :=
| Return (a : A)
| Raise (e : PyExc).

Arguments Return {A} a.
Arguments Raise {A} e.

Definition bind {A B : Type} (c : result A) (k : A -> result B) : result B :=
  match c with
  | Return a => k a
  | Raise e => Raise e
  end.

Notation "x <- c ;; k" := (bind c (fun x => k))
  (at level 61, c at next level, right associativity).

Definition raises {A : Type} (c : result A) : Prop :=
  exists e, c = Raise e.

(** ** C ints *)

Definition INT_MIN : Z := -2147483648.
Definition INT_MAX : Z := 2147483647.

(** Addition of C [int]s as the compiled code performs it: 32 bits, two's
    complement, wrapping around at [INT_MAX]. *)
Definition int_add (a b : Z) : Z :=
  ((a + b - INT_MIN) mod 4294967296 + INT_MIN)%Z.

(** ** Doubles *)

Definition double : Type := float.

(** libc's [isnan] and [fabs]. *)
Definition isnan (a : double) : bool := is_nan a.
Definition fabs (a : double) : double := abs a.

(** Division of C doubles as Cython compiles it while the [cdivision]
    directive is off (in idealsurface.pyx the directive is commented out):
    the divisor is compared with zero first and [ZeroDivisionError] is raised
    instead of dividing. *)
Definition py_div (a b : double) : result double :=
  if b =? 0 then Raise ZeroDivisionError else Return (a / b).

(** ** Eigen vectors (pyoptools.misc.cmisc.eigen) *)

Record Vector3d : Type := mkVector3d { c0 : double; c1 : double; c2 : double }.

(** Modelled from the spec: [assign_nan_to_vector3d] of
    pyoptools.misc.cmisc.eigen is not part of the sources at hand; the
    sentinel for "no intersection" has all coordinates marked not-a-number. *)
Definition assign_nan_to_vector3d : Vector3d := mkVector3d nan nan nan.

(** Modelled from the spec: [assign_doubles_to_vector3d] of
    pyoptools.misc.cmisc.eigen is not part of the sources at hand; it stores
    three doubles as the coordinates of the output vector. *)
Definition assign_doubles_to_vector3d (X Y Z : double) : Vector3d :=
  mkVector3d X Y Z.

(** Eigen's coefficient-wise operations on [Vector3d]. *)
Definition vscale (v : Vector3d) (s : double) : Vector3d :=
  mkVector3d (c0 v * s) (c1 v * s) (c2 v * s).

Definition vsub (a b : Vector3d) : Vector3d :=
  mkVector3d (c0 a - c0 b) (c1 a - c1 b) (c2 a - c2 b).

Definition vopp (a : Vector3d) : Vector3d :=
  mkVector3d (- c0 a) (- c1 a) (- c2 a).

Definition squaredNorm (v : Vector3d) : double :=
  c0 v * c0 v + c1 v * c1 v + c2 v * c2 v.

(** Eigen's [MatrixBase::normalize]: divide by the norm when the squared
    norm is positive, leave the vector alone otherwise. *)
Definition normalize (v : Vector3d) : Vector3d :=
  let z := squaredNorm v in
  if 0 <? z
  then mkVector3d (c0 v / sqrt z) (c1 v / sqrt z) (c2 v / sqrt z)
  else v.

(** The test [propagate] applies to an intersection point. *)
Definition is_no_hit (p : Vector3d) : bool :=
  isnan (c0 p) || isnan (c1 p) || isnan (c2 p).

(** ** Rays

    The arguments of [Ray.fast_init], in the order of its call sites:
    origin, direction, intensity, wavelength, n, label, draw_color, parent,
    pop, orig_surf, order, parent_cnt.  The generation counter [_parent_cnt]
    is a C [int]: the values it takes lie between [INT_MIN] and [INT_MAX],
    and the [+ 1] of the propagate methods is [int_add]. *)

Inductive Ray : Type := fast_init {
  _origin : Vector3d;
  _direction : Vector3d;
  intensity : double;
  wavelength : double;
  n : double;
  label : string;
  draw_color : option string;
  parent : option Ray;
  pop : double;
  orig_surf : Z;
  order : Z;
  _parent_cnt : Z
}.

(** ** Shapes: the "point inside region" collaborator *)

Record Shape : Type := mkShape { hit_cy : Vector3d -> bool }.

(** Eigen's [dot]. *)
Definition dot (a b : Vector3d) : double :=
  c0 a * c0 b + c1 a * c1 b + c2 a * c2 b.

(** Modelled from the spec: [Surface.intersection_cy] (surface.pyx) is not
    part of the sources at hand.  It runs the variant's
    [_calculate_intersection]; a point that does not lie ahead of the ray's
    origin along its direction is NO_HIT (the component of point - origin
    along the direction is below the tolerance 1e-10, written here as the
    double nearest to it); and it honours the aperture boundary: a point
    outside the surface's shape is NO_HIT too. *)
Definition intersection_cy (shape : Shape)
    (_calculate_intersection : Ray -> result Vector3d)
    (incident_ray : Ray) : result Vector3d :=
  intersection_point <- _calculate_intersection incident_ray ;;
  if dot (vsub intersection_point (_origin incident_ray))
         (_direction incident_ray) <? 0x1.b7cdfd9d7bdbbp-34
  then Return assign_nan_to_vector3d
  else
    Return (if hit_cy shape intersection_point
            then intersection_point
            else assign_nan_to_vector3d).

(** ** IdealSurface *)

Module IdealSurface.

Record t : Type := mk {
  shape : Shape;
  reflectivity_function : double -> double;
  id : Z;
  f : double
}.

(** [_calculate_intersection]: intersection with the plane z = 0.  The
    method is declared [noexcept]; the outcome type only makes the checked
    division visible. *)
Definition _calculate_intersection (self : t) (incident_ray : Ray)
  : result Vector3d :=
  let x1 := c0 (_origin incident_ray) in
  let y1 := c1 (_origin incident_ray) in
  let z1 := c2 (_origin incident_ray) in
  let dx := c0 (_direction incident_ray) in
  let dy := c1 (_direction incident_ray) in
  let dz := c2 (_direction incident_ray) in
  if dz =? 0 then Return assign_nan_to_vector3d
  else
    u <- py_div (- z1) dz ;;
    let X := x1 + u * dx in
    let Y := y1 + u * dy in
    let Z := z1 + u * dz in
    Return (assign_doubles_to_vector3d X Y Z).

Definition _calculate_normal (self : t) (intersection_point : Vector3d)
  : Vector3d :=
  assign_doubles_to_vector3d 0 0 1.

Definition propagate (self : t) (incident_ray : Ray) (ni nr : double)
  : result (list Ray) :=
  intersection_point <-
    intersection_cy (shape self) (_calculate_intersection self) incident_ray ;;
  if isnan (c0 intersection_point) || isnan (c1 intersection_point)
     || isnan (c2 intersection_point)
  then Return []
  else
    let dirv := _direction incident_ray in
    let rz := c2 dirv in
    if rz =? 0 then Return []
    else
      scale <- py_div (f self) (fabs rz) ;;
      let FP := vscale dirv scale in
      let reflect := reflectivity_function self (wavelength incident_ray) in
      if (1 <? reflect) || (reflect <? 0) then Raise ValueError
      else
        let d := vsub FP intersection_point in
        let d := if f self <? 0 then vopp d else d in
        let d := normalize d in
        let rdir := normalize (vsub intersection_point FP) in
        if reflect =? 0 then
          Return [fast_init intersection_point d
                    (intensity incident_ray) (wavelength incident_ray)
                    nr (label incident_ray) (draw_color incident_ray)
                    None 0 (id self) 0 (int_add (_parent_cnt incident_ray) 1)]
        else if reflect =? 1 then
          Return [fast_init intersection_point rdir
                    (intensity incident_ray) (wavelength incident_ray)
                    ni (label incident_ray) (draw_color incident_ray)
                    None 0 (id self) 0 (int_add (_parent_cnt incident_ray) 1)]
        else
          Return [fast_init intersection_point d
                    (intensity incident_ray * (1 - reflect))
                    (wavelength incident_ray)
                    nr (label incident_ray) (draw_color incident_ray)
                    None 0 (id self) 0 (int_add (_parent_cnt incident_ray) 1);
                  fast_init intersection_point rdir
                    (intensity incident_ray * reflect)
                    (wavelength incident_ray)
                    ni (label incident_ray) (draw_color incident_ray)
                    None 0 (id self) 0 (int_add (_parent_cnt incident_ray) 1)].

End IdealSurface.

(** ** OpticalStop *)

Module OpticalStop.

Record t : Type := mk {
  shape : Shape;
  ap_shape : option Shape;
  id : Z
}.

Section Inherited.

(** [Plane._calculate_intersection] (plane.pyx) is inherited and not part
    of the sources at hand: the stop is stated over any such method. *)
Variable Plane_calculate_intersection : t -> Ray -> Vector3d.

Definition _calculate_intersection (self : t) (incident_ray : Ray)
  : Vector3d :=
  let intersection_point :=
    Plane_calculate_intersection self incident_ray in
  match ap_shape self with
  | Some ap =>
      if hit_cy ap intersection_point
      then assign_nan_to_vector3d
      else intersection_point
  | None => intersection_point
  end.

Definition propagate (self : t) (ri : Ray) (ni nr : double) : list Ray :=
  let PI := _calculate_intersection self ri in
  let ret_ray :=
    fast_init PI (_direction ri) 0 (wavelength ri) (n ri) (label ri)
      (draw_color ri) (Some ri) (pop ri) (id self) 0
      (int_add (_parent_cnt ri) 1) in
  [ret_ray].

(** The intersection of the stop in the words of its description: the
    plane's point, replaced by the sentinel exactly when an aperture
    shape exists and the point lies inside it. *)
Definition blocked_by_aperture (self : t) (p : Vector3d) : bool :=
  match ap_shape self with
  | Some ap => hit_cy ap p
  | None => false
  end.

Definition intersection_described (self : t) (incident_ray : Ray)
  : Vector3d :=
  if blocked_by_aperture self
       (Plane_calculate_intersection self incident_ray)
  then assign_nan_to_vector3d
  else Plane_calculate_intersection self incident_ray.

End Inherited.

End OpticalStop.

(** ** SimpleDMD *)

Module SimpleDMD.

(** The fields the class declares, and the two arguments the constructor
    hands to [Plane.__init__] (plane.pyx, not part of the sources at hand):
    [shape] is the [shape] argument as passed on, whatever [Plane.__init__]
    then stores for it, and [reflectivity] is the 1.0 passed in its place;
    further keyword arguments go to [Plane.__init__] and are left out. *)
Record t : Type := mk {
  shape : option Shape;
  reflectivity : double;
  _normal_on : Vector3d;
  _normal_off : Vector3d;
  _normal_flat : Vector3d;
  _state : string;
  _tilt_angle : double;
  _on_direction_angle : double;
  _off_direction_angle : double
}.

(** [value in ("on", "off", "flat")]. *)
Definition in_states (value : string) : bool :=
  (value =? "on")%string || (value =? "off")%string
  || (value =? "flat")%string.

Section Libm.

(** libc's [sin] and [cos]. *)
Variables sin cos : double -> double.

Definition __init__ (tilt_angle on_direction_angle
                     off_direction_angle : double)
    (state : string) (shape : option Shape) : result t :=
  if negb (in_states state) then Raise ValueError
  else
    let normal_on :=
      normalize (mkVector3d (sin tilt_angle * cos on_direction_angle)
                            (sin tilt_angle * sin on_direction_angle)
                            (cos tilt_angle)) in
    let normal_off :=
      normalize (mkVector3d (sin tilt_angle * cos off_direction_angle)
                            (sin tilt_angle * sin off_direction_angle)
                            (cos tilt_angle)) in
    let normal_flat := normalize (mkVector3d 0 0 1) in
    Return (mk shape 1 normal_on normal_off normal_flat state
               tilt_angle on_direction_angle off_direction_angle).

(** The documented spherical formula, normalised. *)
Definition spherical_normal (tilt direction : double) : Vector3d :=
  normalize (mkVector3d (sin tilt * cos direction)
                        (sin tilt * sin direction)
                        (cos tilt)).

End Libm.

(** The [state] property: getter and setter. *)
Definition state (self : t) : string := _state self.

Definition set_state (self : t) (value : string) : result t :=
  if negb (in_states value) then Raise ValueError
  else
    Return (mk (shape self) (reflectivity self) (_normal_on self)
               (_normal_off self) (_normal_flat self) value
               (_tilt_angle self) (_on_direction_angle self)
               (_off_direction_angle self)).

Definition _calculate_normal (self : t) (intersection_point : Vector3d)
  : Vector3d :=
  if (_state self =? "on")%string then _normal_on self
  else if (_state self =? "off")%string then _normal_off self
  else _normal_flat self.

(** A mirror as client code can hold it: built by the constructor, then
    switched any number of times through the setter. *)
Inductive built (sin cos : double -> double) (tilt on_dir off_dir : double)
  : t -> Prop :=
| built_init state shape dmd :
    __init__ sin cos tilt on_dir off_dir state shape = Return dmd ->
    built sin cos tilt on_dir off_dir dmd
| built_set dmd value dmd' :
    built sin cos tilt on_dir off_dir dmd ->
    set_state dmd value = Return dmd' ->
    built sin cos tilt on_dir off_dir dmd'.

End SimpleDMD.

(** ** The ray tree

    [spawns ri r]: some propagate call of an ideal surface or of a stop on
    the incident ray [ri] returned [r] among its children. *)

Inductive spawns (Plane_calculate_intersection : OpticalStop.t -> Ray -> Vector3d)
  : Ray -> Ray -> Prop :=
| spawns_ideal self ri ni nr rays r :
    IdealSurface.propagate self ri ni nr = Return rays ->
    In r rays ->
    spawns Plane_calculate_intersection ri r
| spawns_stop self ri ni nr r :
    In r (OpticalStop.propagate Plane_calculate_intersection self ri ni nr) ->
    spawns Plane_calculate_intersection ri r.

(** ** A sample scene

    Concrete collaborators and rays on which the statements below are
    evaluated. *)

(** Modelled from the spec: [Plane._calculate_intersection] (plane.pyx) is
    not part of the sources at hand.  A flat variant is defined relative to
    its local z = 0 plane; a ray parallel to that plane has no intersection,
    any other ray meets it at origin + u * direction with u = -z1/dz. *)
Definition Plane_calculate_intersection_z0 (self : OpticalStop.t)
    (incident_ray : Ray) : Vector3d :=
  let P1 := _origin incident_ray in
  let L1 := _direction incident_ray in
  if c2 L1 =? 0 then assign_nan_to_vector3d
  else
    let u := - c2 P1 / c2 L1 in
    mkVector3d (c0 P1 + u * c0 L1) (c1 P1 + u * c1 L1) (c2 P1 + u * c2 L1).

(** Modelled from the spec: the shape classes are external collaborators
    known only as a "point inside region" predicate; this one is a disc of
    the given radius around the local origin. *)
Definition Circular (radius : double) : Shape :=
  mkShape (fun p => c0 p * c0 p + c1 p * c1 p <=? radius * radius).

(** A source ray: generation 0, no parent, in a medium of index 1. *)
Definition source_ray (origin direction : Vector3d) (I : double) : Ray :=
  fast_init origin direction I 0.5 1 "source" None None 0 0 0 0.

(** Along the axis towards the surface, starting 10 units in front of it. *)
Definition ray_on_axis : Ray :=
  source_ray (mkVector3d 0 0 (-10)) (mkVector3d 0 0 1) 1.

(** Parallel to the axis at height 5. *)
Definition ray_off_axis : Ray :=
  source_ray (mkVector3d 5 0 (-10)) (mkVector3d 0 0 1) 1.

(** Leaving the surface: the plane z = 0 lies one unit behind the origin. *)
Definition ray_leaving : Ray :=
  source_ray (mkVector3d 0 0 1) (mkVector3d 0 0 1) 1.

(** Parallel to the plane z = 0. *)
Definition ray_parallel : Ray :=
  source_ray (mkVector3d 0 0 (-10)) (mkVector3d 1 0 0) 1.


(** Off axis with intensity 3. *)
Definition ray_bright : Ray :=
  source_ray (mkVector3d 5 0 (-10)) (mkVector3d 0 0 1) 3.

(** An ideal lens of focal length 100 with a constant reflectivity. *)
Definition ideal_lens (R : double) : IdealSurface.t :=
  IdealSurface.mk (Circular 30) (fun _ => R) 7 100.

(** A stop in the manner of the class documentation: a disc of radius 30
    with a circular hole of radius 2.5. *)
Definition stop_with_hole : OpticalStop.t :=
  OpticalStop.mk (Circular 30) (Some (Circular 2.5)) 3.

(** The full stop of the class documentation. *)
Definition full_stop : OpticalStop.t :=
  OpticalStop.mk (Circular 10) None 4.

(** An ideal surface of focal length -100 with a constant reflectivity. *)
Definition diverging_lens (R : double) : IdealSurface.t :=
  IdealSurface.mk (Circular 30) (fun _ => R) 8 (-100).

(** Stand-ins for libc's [sin] and [cos] on the sample mirror: the Taylor
    polynomials of degree 3 and 2. *)
Definition sin_poly (a : double) : double := a - a * a * a / 6.
Definition cos_poly (a : double) : double := 1 - a * a / 2.

(** The mirror [SimpleDMD(0.25, 0, 3, state)] over the stand-ins, as its
    constructor builds it. *)
Definition sample_dmd (state : string) : SimpleDMD.t :=
  SimpleDMD.mk None 1
    (SimpleDMD.spherical_normal sin_poly cos_poly 0.25 0)
    (SimpleDMD.spherical_normal sin_poly cos_poly 0.25 3)
    (mkVector3d 0 0 1) state 0.25 0 3.

(** The mirror [SimpleDMD(0, 0, 3, state)] over the stand-ins: no tilt. *)
Definition untilted_dmd (state : string) : SimpleDMD.t :=
  SimpleDMD.mk None 1
    (SimpleDMD.spherical_normal sin_poly cos_poly 0 0)
    (SimpleDMD.spherical_normal sin_poly cos_poly 0 3)
    (mkVector3d 0 0 1) state 0 0 3.

(** [ray_off_axis] at the largest generation a C int holds, and its child
    at the sample stop. *)
Definition ray_saturated : Ray :=
  fast_init (mkVector3d 5 0 (-10)) (mkVector3d 0 0 1) 1 0.5 1 "source" None
    None 0 0 0 2147483647.

Definition wrapped_child : Ray :=
  fast_init (mkVector3d 5 0 0) (mkVector3d 0 0 1) 0 0.5 1 "source" None
    (Some ray_saturated) 0 3 0 (-2147483648).

(** The child of [ray_off_axis] at the sample stop, and the child of that
    child at the full stop. *)
Definition stopped_once : Ray :=
  fast_init (mkVector3d 5 0 0) (mkVector3d 0 0 1) 0 0.5 1 "source" None
    (Some ray_off_axis) 0 3 0 1.

Definition stopped_twice : Ray :=
  fast_init (mkVector3d 5 0 0) (mkVector3d 0 0 1) 0 0.5 1 "source" None
    (Some stopped_once) 0 4 0 2.

(** ** Vocabulary of the statements *)

(** The intersection parameter of a ray with the plane z = 0: the [u] of
    [_calculate_intersection], negative when the plane lies behind the
    ray's origin. *)
Definition intersection_parameter (r : Ray) : double :=
  - c2 (_origin r) / c2 (_direction r).

(** The point of a ray at parameter [u]. *)
Definition point_at (r : Ray) (u : double) : Vector3d :=
  mkVector3d (c0 (_origin r) + u * c0 (_direction r))
             (c1 (_origin r) + u * c1 (_direction r))
             (c2 (_origin r) + u * c2 (_direction r)).

(** The intersection step of [IdealSurface.propagate]. *)
Definition hit_point (self : IdealSurface.t) (ray : Ray) : result Vector3d :=
  intersection_cy (IdealSurface.shape self)
    (IdealSurface._calculate_intersection self) ray.

(** The reflectivity [IdealSurface.propagate] reads for a ray. *)
Definition reflectivity_at (self : IdealSurface.t) (ray : Ray) : double :=
  IdealSurface.reflectivity_function self (wavelength ray).

(** FP = dir * f / abs(rz). *)
Definition focal_point (self : IdealSurface.t) (ray : Ray) : Vector3d :=
  vscale (_direction ray)
         (IdealSurface.f self / fabs (c2 (_direction ray))).

Definition transmitted_direction (self : IdealSurface.t) (ray : Ray)
    (p : Vector3d) : Vector3d :=
  let d := vsub (focal_point self ray) p in
  normalize (if IdealSurface.f self <? 0 then vopp d else d).

Definition reflected_direction (self : IdealSurface.t) (ray : Ray)
    (p : Vector3d) : Vector3d :=
  normalize (vsub p (focal_point self ray)).

(** A child ray as [IdealSurface.propagate] builds it: at the intersection
    point, with the wavelength, label and colour of the incident ray, no
    parent reference, and the next generation. *)
Definition ideal_child (self : IdealSurface.t) (ray : Ray)
    (p dir : Vector3d) (I index : double) : Ray :=
  fast_init p dir I (wavelength ray) index (label ray) (draw_color ray)
    None 0 (IdealSurface.id self) 0 (int_add (_parent_cnt ray) 1).

(** What the constructor of a mirror establishes and its setter preserves:
    the three stored normals are the ones of the configured angles and the
    state is one of the three labels. *)
Definition mirror_invariant (sin cos : double -> double)
    (tilt on_dir off_dir : double) (dmd : SimpleDMD.t) : Prop :=
  SimpleDMD._normal_on dmd = SimpleDMD.spherical_normal sin cos tilt on_dir /\
  SimpleDMD._normal_off dmd = SimpleDMD.spherical_normal sin cos tilt off_dir /\
  SimpleDMD._normal_flat dmd = mkVector3d 0 0 1 /\
  SimpleDMD.in_states (SimpleDMD._state dmd) = true.

(** ** Further vocabulary *)

(** C's [isfinite]: neither NaN nor an infinity. *)
Definition isfinite (a : double) : bool :=
  match Prim2SF a with
  | S754_zero _ | S754_finite _ _ _ => true
  | S754_infinity _ | S754_nan => false
  end.

(** The coordinates of two vectors compare equal under [==] (so +0 and -0
    agree, and a NaN coordinate agrees with nothing). *)
Definition coords_equal (a b : Vector3d) : bool :=
  (c0 a =? c0 b) && (c1 a =? c1 b) && (c2 a =? c2 b).

(** The mirror after the statement [dmd.state = value] has run: the setter
    raises before it assigns, so a refused value leaves the mirror as it
    was. *)
Definition assign_state (dmd : SimpleDMD.t) (value : string) : SimpleDMD.t :=
  match SimpleDMD.set_state dmd value with
  | Return dmd' => dmd'
  | Raise _ => dmd
  end.

(** A run of such statements, in order. *)
Definition assign_states (dmd : SimpleDMD.t) (values : list string)
  : SimpleDMD.t :=
  fold_left assign_state values dmd.

(** The last of the values that is one of the three labels, or [current]
    when none is. *)
Definition last_accepted (current : string) (values : list string) : string :=
  fold_left (fun s v => if SimpleDMD.in_states v then v else s) values current.

(** The same ray travelling the other way. *)
Definition reversed (r : Ray) : Ray :=
  fast_init (_origin r) (vopp (_direction r)) (intensity r) (wavelength r)
    (n r) (label r) (draw_color r) (parent r) (pop r) (orig_surf r)
    (order r) (_parent_cnt r).

(** Two doubles agree: they compare equal under [==], or both are NaN. *)
Definition agree (a b : double) : bool :=
  (a =? b) || (is_nan a && is_nan b).

Definition directions_agree (u v : Vector3d) : bool :=
  agree (c0 u) (c0 v) && agree (c1 u) (c1 v) && agree (c2 u) (c2 v).

(** Two doubles are the same up to the sign of a zero. *)
Definition same (a b : double) : Prop :=
  a = b \/ ((a =? 0) = true /\ (b =? 0) = true).

Definition SFsame (x y : spec_float) : Prop :=
  x = y \/ (exists s s', x = S754_zero s /\ y = S754_zero s').

Definition vsame (u v : Vector3d) : Prop :=
  same (c0 u) (c0 v) /\ same (c1 u) (c1 v) /\ same (c2 u) (c2 v).

(** A ray whose generation counter is a C int below [INT_MAX]: the next
    generation does not wrap. *)
Definition unsaturated (r : Ray) : Prop :=
  (INT_MIN <= _parent_cnt r < INT_MAX)%Z.

(** A propagate step from such a ray. *)
Definition spawns_unsaturated
    (P : OpticalStop.t -> Ray -> Vector3d) (a b : Ray) : Prop :=
  unsaturated a /\ spawns P a b.

(** [spawns_in P k a d]: [d] is reached from [a] by [k] propagate steps. *)
Inductive spawns_in (P : OpticalStop.t -> Ray -> Vector3d)
  : nat -> Ray -> Ray -> Prop :=
| spawns_in_O a : spawns_in P O a a
| spawns_in_S k a b d :
    spawns_in P k a b -> spawns P b d -> spawns_in P (S k) a d.

(** [through_stops P k a d]: [d] is reached from [a] by [k] propagate steps,
    each of them at an optical stop. *)
Inductive through_stops (P : OpticalStop.t -> Ray -> Vector3d)
  : nat -> Ray -> Ray -> Prop :=
| through_stops_O a : through_stops P O a a
| through_stops_S k a b d self ni nr :
    through_stops P k a b ->
    In d (OpticalStop.propagate P self b ni nr) ->
    through_stops P (S k) a d.

(** The ray found by following the parent reference [k] times. *)
Fixpoint ancestor (k : nat) (r : Ray) : option Ray :=
  match k with
  | O => Some r
  | S k' =>
      match parent r with
      | Some p => ancestor k' p
      | None => None
      end
  end.

(** ** Real values of doubles *)

(** The real number a double stands for: [(-1)^s * m * 2^e] for a finite
    one and 0 for a zero.  By convention the infinities and NaN are given
    the value 0; the properties that use [double_value] state finiteness
    separately. *)
Definition sign_value (s : bool) : R := if s then (-1)%R else 1%R.

Definition SF2R (x : spec_float) : R :=
  match x with
  | S754_finite s m e => (sign_value s * IZR (Zpos m) * powerRZ 2 e)%R
  | _ => 0%R
  end.

Definition double_value (a : double) : R := SF2R (Prim2SF a).

Arguments double_value a%_float.

(** [isfinite] on the decoded form of a double. *)
Definition SFfinite (x : spec_float) : bool :=
  match x with
  | S754_zero _ | S754_finite _ _ _ => true
  | S754_infinity _ | S754_nan => false
  end.

(** The unit roundoff of binary64, [2^-53], and half the least positive
    subnormal, [2^-1075]. *)
Definition unit_roundoff : R := powerRZ 2 (-53).
Definition half_subnormal : R := powerRZ 2 (-1075).

(** What [k] right shifts of the mantissa [m0] have kept: the quotient, and
    in the round and sticky bits the position of the remainder relative to
    half a unit. *)
Definition shr_inv (m0 : Z) (k : Z) (mrs : shr_record) : Prop :=
  (0 <= shr_m mrs)%Z /\
  exists rem : Z,
    (m0 = shr_m mrs * 2 ^ k + rem)%Z /\ (0 <= rem < 2 ^ k)%Z /\
    (shr_r mrs = true <-> (2 ^ k <= 2 * rem)%Z) /\
    (shr_s mrs = true <-> (rem <> 0 /\ 2 * rem <> 2 ^ k)%Z).

(** * Properties *)

(** ** Comparisons of doubles *)

Lemma SFcompare_antisym (a b : spec_float) (c : comparison) :
  SFcompare a b = Some c -> SFcompare b a = Some (CompOpp c).
Proof.
  destruct a as [sa|sa| |sa ma ea], b as [sb|sb| |sb mb eb]; simpl;
    try discriminate;
    try (destruct sa; intros [= <-]; reflexivity);
    try (destruct sb; intros [= <-]; reflexivity);
    try (destruct sa, sb; intros [= <-]; reflexivity).
  destruct sa, sb; intros [= <-]; try reflexivity;
    rewrite (Z.compare_antisym ea eb);
    destruct (ea ?= eb)%Z; simpl; try reflexivity;
    rewrite (Pos.compare_cont_antisym ma mb Eq); simpl;
    destruct (Pos.compare_cont Eq ma mb); reflexivity.
Qed.

Lemma ltb_asym (a b : double) : (a <? b) = true -> (b <? a) = false.
Proof.
  rewrite !ltb_spec. unfold SFltb.
  destruct (SFcompare (Prim2SF a) (Prim2SF b)) as [[]|] eqn:E; try discriminate.
  intros _. rewrite (SFcompare_antisym _ _ _ E). reflexivity.
Qed.

Lemma ltb_neq (a b : double) :
  (a <? b) = true -> (a =? b) = false /\ (b =? a) = false.
Proof.
  rewrite ltb_spec, !eqb_spec. unfold SFltb, SFeqb.
  destruct (SFcompare (Prim2SF a) (Prim2SF b)) as [[]|] eqn:E; try discriminate.
  intros _. rewrite (SFcompare_antisym _ _ _ E). split; reflexivity.
Qed.

Lemma eqb_ltb (a b : double) :
  (a =? b) = true -> (a <? b) = false /\ (b <? a) = false.
Proof.
  rewrite eqb_spec, !ltb_spec. unfold SFltb, SFeqb.
  destruct (SFcompare (Prim2SF a) (Prim2SF b)) as [[]|] eqn:E; try discriminate.
  intros _. rewrite (SFcompare_antisym _ _ _ E). split; reflexivity.
Qed.

Lemma eqb_zero_Prim2SF (a : double) :
  (a =? 0) = true -> exists s, Prim2SF a = S754_zero s.
Proof.
  rewrite eqb_spec. change (Prim2SF 0) with (S754_zero false).
  destruct (Prim2SF a) as [s|s| |s m e]; unfold SFeqb; simpl;
    try discriminate; try (destruct s; discriminate).
  intros _. exists s. reflexivity.
Qed.

Lemma fabs_nonzero (a : double) : (a =? 0) = false -> (fabs a =? 0) = false.
Proof.
  unfold fabs. rewrite !eqb_spec, abs_spec.
  change (Prim2SF 0) with (S754_zero false).
  destruct (Prim2SF a) as [s|s| |s m e]; unfold SFeqb; simpl;
    try discriminate; try reflexivity.
Qed.

Lemma eqb_zero_not_above_one (a : double) : (a =? 0) = true -> (1 <? a) = false.
Proof.
  intros H. destruct (eqb_zero_Prim2SF a H) as [s Hs].
  rewrite ltb_spec, Hs. reflexivity.
Qed.

Lemma eqb_one_eq (a : double) : (a =? 1) = true -> a = 1.
Proof.
  rewrite eqb_spec. intros H. apply Prim2SF_inj. revert H.
  change (Prim2SF 1) with (S754_finite false 4503599627370496 (-52)).
  destruct (Prim2SF a) as [s|s| |s m e]; unfold SFeqb, SFcompare;
    try discriminate; try (destruct s; discriminate).
  destruct s; try discriminate.
  destruct (e ?= -52)%Z eqn:He; try discriminate.
  apply Z.compare_eq in He. subst e.
  destruct (Pos.compare_cont Eq m 4503599627370496) eqn:Hm; try discriminate.
  apply Pos.compare_eq in Hm. subst m. reflexivity.
Qed.

Lemma is_nan_eq (a : double) : is_nan a = true -> a = nan.
Proof.
  unfold is_nan. rewrite eqb_spec. intros H. apply Prim2SF_inj.
  change (Prim2SF nan) with S754_nan.
  destruct (Prim2SF a) as [s|s| |s m e]; unfold SFeqb, SFcompare in H;
    try reflexivity; try (destruct s; discriminate).
  destruct s; rewrite Z.compare_refl, Pos.compare_cont_refl in H;
    discriminate.
Qed.

(** ** IdealSurface: intersection *)

Lemma py_div_nonzero (a b : double) :
  (b =? 0) = false -> py_div a b = Return (a / b).
Proof. unfold py_div. intros ->. reflexivity. Qed.

Lemma calculate_intersection_eq (self : IdealSurface.t) (r : Ray) :
  IdealSurface._calculate_intersection self r =
  if c2 (_direction r) =? 0 then Return assign_nan_to_vector3d
  else Return (point_at r (intersection_parameter r)).
Proof.
  unfold IdealSurface._calculate_intersection.
  destruct (c2 (_direction r) =? 0) eqn:Hdz; [reflexivity|].
  rewrite (py_div_nonzero _ _ Hdz). reflexivity.
Qed.

(** C2, as stated, fails: the ray [ray_leaving] starts at (0,0,1) and
    points away from the plane, its intersection parameter is -1, and
    [_calculate_intersection] reports the point (0,0,0) of the plane, none
    of whose coordinates is NaN. *)
Lemma C2_behind_origin_still_hits :
  (intersection_parameter ray_leaving <? 0) = true /\
  IdealSurface._calculate_intersection (ideal_lens 0) ray_leaving
    = Return (mkVector3d 0 0 0) /\
  is_no_hit (mkVector3d 0 0 0) = false.
Proof. repeat split; vm_compute; reflexivity. Qed.

(** C2, amended: [IdealSurface._calculate_intersection] never tests the sign
    of the intersection parameter.  It reports the NaN sentinel on the branch
    where the direction's z-component compares equal to zero; on the other
    branch it returns the point origin + u * direction with u = -z1/dz, and
    does so in particular when u is negative, the plane lying behind the
    ray's origin. *)
Theorem C2_intersection_ignores_sign (self : IdealSurface.t) (r : Ray) :
  IdealSurface._calculate_intersection self r
    = (if c2 (_direction r) =? 0 then Return assign_nan_to_vector3d
       else Return (point_at r (intersection_parameter r))) /\
  ((c2 (_direction r) =? 0) = true ->
     IdealSurface._calculate_intersection self r
       = Return assign_nan_to_vector3d) /\
  ((c2 (_direction r) =? 0) = false ->
   (intersection_parameter r <? 0) = true ->
     IdealSurface._calculate_intersection self r
       = Return (point_at r (intersection_parameter r))).
Proof.
  rewrite calculate_intersection_eq.
  split; [reflexivity|]. split.
  - intros ->. reflexivity.
  - intros -> _. reflexivity.
Qed.

(** ** IdealSurface: propagate *)

Lemma calculate_intersection_returns (self : IdealSurface.t) (r : Ray) :
  exists p, IdealSurface._calculate_intersection self r = Return p.
Proof.
  rewrite calculate_intersection_eq.
  destruct (c2 (_direction r) =? 0); eexists; reflexivity.
Qed.

Lemma hit_point_returns (self : IdealSurface.t) (r : Ray) :
  exists p, hit_point self r = Return p.
Proof.
  unfold hit_point, intersection_cy.
  destruct (calculate_intersection_returns self r) as [q ->].
  simpl. destruct (_ <? _); eexists; reflexivity.
Qed.

Lemma is_no_hit_sentinel : is_no_hit assign_nan_to_vector3d = true.
Proof. reflexivity. Qed.

(** A ray parallel to the plane never yields a point. *)
Lemma hit_point_parallel (self : IdealSurface.t) (r : Ray) :
  (c2 (_direction r) =? 0) = true ->
  hit_point self r = Return assign_nan_to_vector3d.
Proof.
  intros Hdz. unfold hit_point, intersection_cy.
  rewrite calculate_intersection_eq, Hdz. simpl.
  destruct (_ <? _); [reflexivity|].
  destruct (hit_cy _ _); reflexivity.
Qed.

Lemma propagate_no_hit (self : IdealSurface.t) (ray : Ray) (ni nr : double)
    (p : Vector3d) :
  hit_point self ray = Return p ->
  is_no_hit p = true ->
  IdealSurface.propagate self ray ni nr = Return [].
Proof.
  unfold hit_point, IdealSurface.propagate, is_no_hit.
  intros -> Hnan. simpl. rewrite Hnan. reflexivity.
Qed.

Lemma propagate_parallel (self : IdealSurface.t) (ray : Ray) (ni nr : double) :
  (c2 (_direction ray) =? 0) = true ->
  IdealSurface.propagate self ray ni nr = Return [].
Proof.
  intros Hdz.
  apply (propagate_no_hit self ray ni nr assign_nan_to_vector3d).
  - apply hit_point_parallel, Hdz.
  - apply is_no_hit_sentinel.
Qed.

(** What [propagate] does once the intersection is a point and the ray is
    not parallel to the plane. *)
Lemma propagate_on_hit (self : IdealSurface.t) (ray : Ray) (ni nr : double)
    (p : Vector3d) :
  hit_point self ray = Return p ->
  is_no_hit p = false ->
  (c2 (_direction ray) =? 0) = false ->
  IdealSurface.propagate self ray ni nr =
  let R := reflectivity_at self ray in
  if (1 <? R) || (R <? 0) then Raise ValueError
  else if R =? 0 then
    Return [ideal_child self ray p (transmitted_direction self ray p)
              (intensity ray) nr]
  else if R =? 1 then
    Return [ideal_child self ray p (reflected_direction self ray p)
              (intensity ray) ni]
  else
    Return [ideal_child self ray p (transmitted_direction self ray p)
              (intensity ray * (1 - R)) nr;
            ideal_child self ray p (reflected_direction self ray p)
              (intensity ray * R) ni].
Proof.
  unfold hit_point, IdealSurface.propagate, is_no_hit.
  intros -> Hnan Hrz. simpl. rewrite Hnan, Hrz.
  rewrite (py_div_nonzero _ _ (fabs_nonzero _ Hrz)). reflexivity.
Qed.

Lemma propagate_never_divides_by_zero (self : IdealSurface.t) (ray : Ray)
    (ni nr : double) :
  IdealSurface.propagate self ray ni nr <> Raise ZeroDivisionError.
Proof.
  destruct (hit_point_returns self ray) as [p Hp].
  destruct (is_no_hit p) eqn:Hnan.
  - rewrite (propagate_no_hit self ray ni nr p Hp Hnan). discriminate.
  - destruct (c2 (_direction ray) =? 0) eqn:Hrz.
    + rewrite (propagate_parallel self ray ni nr Hrz). discriminate.
    + rewrite (propagate_on_hit self ray ni nr p Hp Hnan Hrz). cbv zeta.
      generalize (reflectivity_at self ray). intros R.
      destruct ((1 <? R) || (R <? 0)); [discriminate|].
      destruct (R =? 0); [discriminate|].
      destruct (R =? 1); discriminate.
Qed.

(** ** Rounding of binary64 operations

    The products and the sum of the beam split are rounded.  What follows
    bounds the error of one rounding from the definition of the operations
    ([SFmul], [SFadd], [SFsub] of the binary64 specification the primitive
    floats obey): a right shift with round and sticky bits, rounding to
    nearest even, and a renormalisation. *)

(** *** The right shift *)

Lemma shr_inv_init (m0 : Z) :
  (0 <= m0)%Z -> shr_inv m0 0 (shr_record_of_loc m0 loc_Exact).
Proof.
  intros H. split; [exact H|]. exists 0%Z. simpl.
  repeat split; try lia; try discriminate; intros; lia.
Qed.

Lemma shr_inv_step (m0 k : Z) (mrs : shr_record) :
  (0 <= k)%Z -> shr_inv m0 k mrs -> shr_inv m0 (k + 1) (shr_1 mrs).
Proof.
  intros Hk [Hm (rem & Hm0 & Hrem & Hr & Hs)].
  assert (Hp : (0 < 2 ^ k)%Z) by (apply Z.pow_pos_nonneg; lia).
  unfold shr_inv. rewrite Z.pow_add_r, Z.pow_1_r by lia.
  destruct mrs as [m r s]. cbn [shr_m shr_r shr_s shr_1] in *.
  assert (Hrs : orb r s = true <-> rem <> 0%Z).
  { rewrite orb_true_iff, Hr, Hs. lia. }
  destruct m as [|[q|q|]|q]; cbn [shr_m shr_r shr_s shr_1]; try lia.
  - split; [lia|]. exists rem. rewrite Hrs.
    repeat split; try lia; try discriminate; intros; try lia.
  - split; [lia|]. exists (2 ^ k + rem)%Z. rewrite Hrs.
    repeat split; try lia; intros; try lia.
  - split; [lia|]. exists rem. rewrite Hrs.
    repeat split; try lia; try discriminate; intros; try lia.
  - split; [lia|]. exists (2 ^ k + rem)%Z. rewrite Hrs.
    repeat split; try lia; intros; try lia.
Qed.

Lemma shr_inv_iter (m0 : Z) (p : positive) :
  forall (k : Z) (mrs : shr_record),
    (0 <= k)%Z -> shr_inv m0 k mrs ->
    shr_inv m0 (k + Zpos p) (SpecFloat.iter_pos shr_1 p mrs).
Proof.
  induction p as [p IH | p IH | ]; intros k mrs Hk H; cbn [SpecFloat.iter_pos].
  - replace (k + Z.pos p~1)%Z with (k + 1 + Z.pos p + Z.pos p)%Z by lia.
    apply IH; [lia|]. apply IH; [lia|]. apply shr_inv_step; assumption.
  - replace (k + Z.pos p~0)%Z with (k + Z.pos p + Z.pos p)%Z by lia.
    apply IH; [lia|]. apply IH; assumption.
  - apply shr_inv_step; assumption.
Qed.

(** Shifting [m0 >= 0] right by [n] bits and rounding to nearest even. *)
Lemma shr_round (m0 e n : Z) :
  (0 <= m0)%Z ->
  let mrs := fst (shr (shr_record_of_loc m0 loc_Exact) e n) in
  let e' := snd (shr (shr_record_of_loc m0 loc_Exact) e n) in
  let mr := round_nearest_even (shr_m mrs) (loc_of_shr_record mrs) in
  let k := Z.max n 0 in
  e' = (e + k)%Z /\
  (0 <= shr_m mrs)%Z /\
  (shr_m mrs * 2 ^ k <= m0 < (shr_m mrs + 1) * 2 ^ k)%Z /\
  (shr_m mrs <= mr <= shr_m mrs + 1)%Z /\
  (2 * Z.abs (mr * 2 ^ k - m0) <= 2 ^ k)%Z /\
  (n <= 0 -> mr = m0)%Z.
Proof.
  intros Hm0. cbv zeta.
  assert (Hinv : shr_inv m0 (Z.max n 0)
                   (fst (shr (shr_record_of_loc m0 loc_Exact) e n)) /\
                 snd (shr (shr_record_of_loc m0 loc_Exact) e n)
                 = (e + Z.max n 0)%Z).
  { destruct n as [|q|q]; cbn [shr fst snd].
    - split; [apply shr_inv_init, Hm0 | lia].
    - split; [|lia].
      replace (Z.max (Z.pos q) 0) with (0 + Z.pos q)%Z by lia.
      apply shr_inv_iter; [lia | apply shr_inv_init, Hm0].
    - split; [apply shr_inv_init, Hm0 | lia]. }
  destruct Hinv as [[Hm (rem & Hm0' & Hrem & Hr & Hs)] He].
  set (k := Z.max n 0) in *.
  assert (Hp : (0 < 2 ^ k)%Z) by (apply Z.pow_pos_nonneg; lia).
  destruct (fst (shr (shr_record_of_loc m0 loc_Exact) e n)) as [m r s].
  cbn [shr_m shr_r shr_s loc_of_shr_record] in *.
  split; [exact He|]. split; [exact Hm|].
  split; [nia|].
  assert (Hk0 : (n <= 0)%Z -> (2 ^ k = 1)%Z).
  { intros Hn. unfold k. rewrite Z.max_r by lia. reflexivity. }
  destruct r, s; cbn [round_nearest_even].
  - assert (2 ^ k <= 2 * rem)%Z by (apply Hr; reflexivity).
    assert (rem <> 0 /\ 2 * rem <> 2 ^ k)%Z by (apply Hs; reflexivity).
    split; [lia|]. split; [nia|]. intros Hn. specialize (Hk0 Hn). lia.
  - assert (2 ^ k <= 2 * rem)%Z by (apply Hr; reflexivity).
    assert (~ (rem <> 0 /\ 2 * rem <> 2 ^ k)%Z)
      by (intros Hc; apply Hs in Hc; discriminate).
    destruct (Z.even m); (split; [lia|]); (split; [nia|]);
      intros Hn; specialize (Hk0 Hn); lia.
  - assert (~ (2 ^ k <= 2 * rem)%Z)
      by (intros Hc; apply Hr in Hc; discriminate).
    split; [lia|]. split; [nia|]. intros Hn. specialize (Hk0 Hn). lia.
  - assert (~ (2 ^ k <= 2 * rem)%Z)
      by (intros Hc; apply Hr in Hc; discriminate).
    assert (~ (rem <> 0 /\ 2 * rem <> 2 ^ k)%Z)
      by (intros Hc; apply Hs in Hc; discriminate).
    split; [lia|]. split; [nia|]. intros Hn. specialize (Hk0 Hn). lia.
Qed.


Lemma digits2_pos_bounds (p : positive) :
  (2 ^ (Zpos (digits2_pos p) - 1) <= Zpos p < 2 ^ Zpos (digits2_pos p))%Z.
Proof.
  induction p as [p IH | p IH | ]; cbn [digits2_pos].
  - rewrite Pos2Z.inj_succ.
    replace (Z.succ (Z.pos (digits2_pos p)) - 1)%Z
      with (Z.succ (Z.pos (digits2_pos p) - 1))%Z by lia.
    rewrite !Z.pow_succ_r by lia. lia.
  - rewrite Pos2Z.inj_succ.
    replace (Z.succ (Z.pos (digits2_pos p)) - 1)%Z
      with (Z.succ (Z.pos (digits2_pos p) - 1))%Z by lia.
    rewrite !Z.pow_succ_r by lia. lia.
  - simpl. lia.
Qed.

Lemma Zdigits2_bounds (m : Z) :
  (0 < m)%Z ->
  (2 ^ (Zdigits2 m - 1) <= m < 2 ^ Zdigits2 m)%Z /\ (0 < Zdigits2 m)%Z.
Proof.
  destruct m as [|p|p]; try lia. intros _. cbn [Zdigits2].
  split; [apply digits2_pos_bounds | lia].
Qed.

Lemma fexp_eq (x : Z) : fexp prec emax x = Z.max (x - 53) (-1074).
Proof. reflexivity. Qed.

Lemma pow2_le (a b : Z) : (0 <= a <= b)%Z -> (2 ^ a <= 2 ^ b)%Z.
Proof. intros H. apply Z.pow_le_mono_r; lia. Qed.

Lemma pow2_lt_inv (a b : Z) : (0 <= b)%Z -> (2 ^ a < 2 ^ b)%Z -> (a < b)%Z.
Proof.
  intros Hb H. destruct (Z_lt_le_dec a b) as [|Hle]; [assumption|].
  assert (2 ^ b <= 2 ^ a)%Z by (apply Z.pow_le_mono_r; lia). lia.
Qed.

(** *** One rounding, on integers *)

(** Rounding the exact mantissa [mx] at exponent [ex]: as long as the
    result cannot overflow, it is a zero or a finite number whose mantissa,
    read at the exponent [e1] of the first shift, is within half a unit of
    the shifted exact value; nothing is lost when no shift is needed. *)
Lemma bra_exact_form (s : bool) (mx : positive) (ex : Z) :
  let E := fexp prec emax (Zpos (digits2_pos mx) + ex) in
  (E < emax - prec)%Z -> (ex <= emax - prec)%Z ->
  exists (m2 e2 mr e1 : Z),
    binary_round_aux prec emax s (Zpos mx) ex loc_Exact
      = match m2 with
        | Z0 => S754_zero s
        | Zpos q => S754_finite s q e2
        | Zneg _ => S754_nan
        end /\
    (0 <= m2)%Z /\ e1 = Z.max E ex /\ (e1 <= e2)%Z /\
    (m2 * 2 ^ (e2 - e1) = mr)%Z /\
    (2 * Z.abs (mr * 2 ^ (e1 - ex) - Zpos mx) <= 2 ^ (e1 - ex))%Z /\
    (E <= ex -> mr = Zpos mx)%Z.
Proof.
  intros E HE Hex.
  assert (HEdef : E = Z.max (Zpos (digits2_pos mx) + ex - 53) (-1074))
    by reflexivity.
  pose proof (digits2_pos_bounds mx) as Hd.
  set (d := Zpos (digits2_pos mx)) in *.
  unfold binary_round_aux, shr_fexp. cbn [Zdigits2]. fold d. fold E.
  pose proof (shr_round (Zpos mx) ex (E - ex) ltac:(lia)) as H1.
  cbv zeta in H1.
  destruct (shr (shr_record_of_loc (Z.pos mx) loc_Exact) ex (E - ex))
    as [mrs1 e1] eqn:Hshr1.
  cbn [fst snd] in H1.
  destruct H1 as (He1 & Hm1 & Hfloor & Hmr & Herr & Hexact).
  set (mr := round_nearest_even (shr_m mrs1) (loc_of_shr_record mrs1)) in *.
  set (k := Z.max (E - ex) 0) in *.
  assert (Hk : (0 <= k)%Z) by lia.
  assert (He1' : e1 = Z.max E ex) by lia.
  assert (Hpk : (0 < 2 ^ k)%Z) by (apply Z.pow_pos_nonneg; lia).
  (* the rounded mantissa does not exceed 2^53 *)
  assert (Hmr53 : (mr <= 2 ^ 53)%Z).
  { assert (Hdk : (2 ^ d <= 2 ^ (53 + k))%Z) by (apply pow2_le; lia).
    rewrite Z.pow_add_r in Hdk by lia.
    assert (shr_m mrs1 < 2 ^ 53)%Z by nia. lia. }
  assert (Hmr0 : (0 <= mr)%Z) by lia.
  pose proof (shr_round mr e1 (fexp prec emax (Zdigits2 mr + e1) - e1) Hmr0)
    as H2.
  cbv zeta in H2.
  destruct (shr (shr_record_of_loc mr loc_Exact) e1
              (fexp prec emax (Zdigits2 mr + e1) - e1))
    as [mrs2 e2] eqn:Hshr2.
  cbn [fst snd] in H2.
  destruct H2 as (He2 & Hm2 & Hfloor2 & _ & _ & _).
  rewrite fexp_eq in He2, Hfloor2.
  set (n2 := (Z.max (Zdigits2 mr + e1 - 53) (-1074) - e1)%Z) in *.
  assert (Hn2 : (n2 <= 0)%Z \/ (n2 = 1 /\ mr = 2 ^ 53 /\ e1 = E)%Z).
  { destruct (Z_le_gt_dec n2 0) as [|Hpos]; [left; assumption|right].
    assert (Hmrpos : (0 < mr)%Z).
    { destruct (Z.eq_dec mr 0) as [E0|]; [|lia].
      exfalso. unfold n2 in Hpos. rewrite E0 in Hpos.
      cbn [Zdigits2] in Hpos. lia. }
    destruct (Zdigits2_bounds mr Hmrpos) as [Hdr Hdr0].
    assert (Hdr53 : (53 < Zdigits2 mr)%Z) by (unfold n2 in Hpos; lia).
    assert (Hge : (2 ^ 53 <= 2 ^ (Zdigits2 mr - 1))%Z) by (apply pow2_le; lia).
    assert (Hmreq : mr = (2 ^ 53)%Z) by lia.
    assert (Hdr54 : (Zdigits2 mr - 1 < 54)%Z).
    { apply pow2_lt_inv; [lia|]. change (2 ^ 54)%Z with (2 * 2 ^ 53)%Z. lia. }
    split; [unfold n2; lia|]. split; [exact Hmreq|].
    (* a carry can only follow a shift *)
    destruct (Z_le_gt_dec E ex) as [Hle|]; [|lia].
    exfalso. specialize (Hexact ltac:(lia)).
    assert (2 ^ 53 < 2 ^ d)%Z by lia.
    assert (53 < d)%Z by (apply pow2_lt_inv; lia). lia. }
  exists (shr_m mrs2), e2, mr, e1.
  split.
  { destruct Hn2 as [Hle | (Hn1 & Hmreq & HeE)].
    - assert (Hk2 : Z.max n2 0 = 0%Z) by lia.
      rewrite Hk2 in *. rewrite Z.pow_0_r in Hfloor2.
      assert (Hm2eq : shr_m mrs2 = mr) by lia.
      rewrite Hm2eq. destruct mr as [|q|q]; try reflexivity.
      assert (Hfin : Z.leb e2 (emax - prec) = true) by (apply Z.leb_le; lia).
      rewrite Hfin. reflexivity.
    - assert (Hk2 : Z.max n2 0 = 1%Z) by lia.
      rewrite Hk2 in *. rewrite Z.pow_1_r in Hfloor2.
      destruct (shr_m mrs2) as [|q|q]; try lia.
      assert (Hfin : Z.leb e2 (emax - prec) = true) by (apply Z.leb_le; lia).
      rewrite Hfin. reflexivity. }
  split; [exact Hm2|]. split; [exact He1'|].
  split; [lia|].
  split.
  { destruct Hn2 as [Hle | (Hn1 & Hmreq & HeE)].
    - assert (Hk2 : Z.max n2 0 = 0%Z) by lia.
      rewrite Hk2 in *. rewrite Z.pow_0_r in Hfloor2.
      replace (e2 - e1)%Z with 0%Z by lia. rewrite Z.pow_0_r. lia.
    - assert (Hk2 : Z.max n2 0 = 1%Z) by lia.
      rewrite Hk2 in *. rewrite Z.pow_1_r in Hfloor2.
      replace (e2 - e1)%Z with 1%Z by lia. rewrite Z.pow_1_r.
      rewrite Hmreq in *. change (2 ^ 53)%Z with (2 * 2 ^ 52)%Z in *. lia. }
  replace (e1 - ex)%Z with k by lia.
  split; [exact Herr|]. intros Hle. apply Hexact. lia.
Qed.

(** *** One rounding, on real values *)

Local Open Scope R_scope.

Lemma bpow_pos (e : Z) : 0 < powerRZ 2 e.
Proof. apply powerRZ_lt. lra. Qed.

Lemma bpow_add (a b : Z) : powerRZ 2 (a + b) = powerRZ 2 a * powerRZ 2 b.
Proof. apply powerRZ_add. lra. Qed.

Lemma bpow_IZR (k : Z) : (0 <= k)%Z -> IZR (2 ^ k) = powerRZ 2 k.
Proof.
  intros Hk. rewrite <- (Z2Nat.id k Hk) at 1.
  rewrite <- pow_IZR. rewrite pow_powerRZ. rewrite Z2Nat.id by exact Hk.
  reflexivity.
Qed.

Lemma bpow_le (a b : Z) : (a <= b)%Z -> powerRZ 2 a <= powerRZ 2 b.
Proof.
  intros Hab. replace b with (a + (b - a))%Z by lia. rewrite bpow_add.
  assert (1 <= powerRZ 2 (b - a)).
  { rewrite <- bpow_IZR by lia. apply IZR_le.
    assert (0 < 2 ^ (b - a))%Z by (apply Z.pow_pos_nonneg; lia). lia. }
  pose proof (bpow_pos a). nra.
Qed.

Lemma bpow_lt (a b : Z) : (a < b)%Z -> powerRZ 2 a < powerRZ 2 b.
Proof.
  intros Hab. replace b with (a + 1 + (b - a - 1))%Z by lia.
  rewrite !bpow_add.
  assert (1 <= powerRZ 2 (b - a - 1)).
  { rewrite <- bpow_IZR by lia. apply IZR_le.
    assert (0 < 2 ^ (b - a - 1))%Z by (apply Z.pow_pos_nonneg; lia). lia. }
  pose proof (bpow_pos a). change (powerRZ 2 1) with (2 * 1). nra.
Qed.

Lemma bpow_lt_inv (a b : Z) : powerRZ 2 a < powerRZ 2 b -> (a < b)%Z.
Proof.
  intros H. destruct (Z_lt_le_dec a b) as [|Hle]; [assumption|].
  apply bpow_le in Hle. lra.
Qed.

Lemma bpow_le_inv (a b : Z) : powerRZ 2 a <= powerRZ 2 b -> (a <= b)%Z.
Proof.
  intros H. destruct (Z_le_gt_dec a b) as [|Hgt]; [assumption|].
  assert (b < a)%Z as Hlt by lia. apply bpow_lt in Hlt. lra.
Qed.

Lemma sign_value_abs (s : bool) (a : R) : Rabs (sign_value s * a) = Rabs a.
Proof.
  destruct s; unfold sign_value.
  - replace (-1 * a) with (- a) by ring. apply Rabs_Ropp.
  - f_equal. ring.
Qed.

(** The value of a positive mantissa lies between the powers of two its
    digit count gives. *)
Lemma digits_value (m : positive) (e : Z) :
  powerRZ 2 (Zpos (digits2_pos m) - 1 + e) <= IZR (Zpos m) * powerRZ 2 e
  /\ IZR (Zpos m) * powerRZ 2 e < powerRZ 2 (Zpos (digits2_pos m) + e).
Proof.
  pose proof (digits2_pos_bounds m) as [Hlo Hhi].
  pose proof (bpow_pos e) as He.
  rewrite !bpow_add.
  apply IZR_le in Hlo. apply IZR_lt in Hhi.
  rewrite bpow_IZR in Hlo, Hhi by lia. split.
  - apply Rmult_le_compat_r; [lra|exact Hlo].
  - apply Rmult_lt_compat_r; [lra|exact Hhi].
Qed.

Lemma bra_value (s : bool) (mx : positive) (ex : Z) :
  let E := fexp prec emax (Zpos (digits2_pos mx) + ex) in
  (E < emax - prec)%Z -> (ex <= emax - prec)%Z ->
  let r := binary_round_aux prec emax s (Zpos mx) ex loc_Exact in
  SFfinite r = true /\
  Rabs (SF2R r - sign_value s * IZR (Zpos mx) * powerRZ 2 ex) <=
    (if (E <=? ex)%Z then 0 else powerRZ 2 (E - 1)).
Proof.
  intros E HE Hex r.
  destruct (bra_exact_form s mx ex HE Hex)
    as (m2 & e2 & mr & e1 & Hr & Hm2 & He1 & He12 & Hmr & Herr & Hexact).
  fold E in He1, Hexact. fold r in Hr.
  assert (Hval : SF2R r = sign_value s * IZR mr * powerRZ 2 e1).
  { rewrite <- Hmr. rewrite mult_IZR. rewrite bpow_IZR by lia.
    replace e2 with (e2 - e1 + e1)%Z at 1 by lia.
    rewrite Hr. destruct m2 as [|q|q]; [| |lia]; cbn [SF2R].
    - ring.
    - replace (e2 - e1 + e1)%Z with e2 by lia.
      replace e2 with (e2 - e1 + e1)%Z at 1 by lia.
      rewrite bpow_add. ring. }
  split.
  { rewrite Hr. destruct m2; [reflexivity|reflexivity|lia]. }
  rewrite Hval.
  replace (sign_value s * IZR mr * powerRZ 2 e1
           - sign_value s * IZR (Z.pos mx) * powerRZ 2 ex)
    with (sign_value s
          * (IZR mr * powerRZ 2 e1 - IZR (Z.pos mx) * powerRZ 2 ex))
    by ring.
  rewrite sign_value_abs.
  destruct (E <=? ex)%Z eqn:Hcmp.
  - apply Z.leb_le in Hcmp. rewrite (Hexact Hcmp).
    replace e1 with ex by lia.
    rewrite Rminus_diag. rewrite Rabs_R0. lra.
  - apply Z.leb_gt in Hcmp.
    assert (He1E : e1 = E) by lia.
    replace (IZR mr * powerRZ 2 e1 - IZR (Z.pos mx) * powerRZ 2 ex)
      with (powerRZ 2 ex * IZR (mr * 2 ^ (e1 - ex) - Z.pos mx)).
    2:{ rewrite minus_IZR, mult_IZR, bpow_IZR by lia.
        replace e1 with (ex + (e1 - ex))%Z at 2 by lia.
        rewrite bpow_add. ring. }
    rewrite Rabs_mult. rewrite (Rabs_pos_eq (powerRZ 2 ex))
      by (apply Rlt_le, bpow_pos).
    rewrite <- abs_IZR.
    apply IZR_le in Herr. rewrite mult_IZR, bpow_IZR in Herr by lia.
    replace (E - 1)%Z with (ex + (e1 - ex) + -1)%Z by lia.
    rewrite !bpow_add. change (powerRZ 2 (-1)) with (/ (2 * 1)).
    pose proof (bpow_pos ex). pose proof (bpow_pos (e1 - ex)).
    set (a := IZR (Z.abs (mr * 2 ^ (e1 - ex) - Z.pos mx))) in *.
    set (p := powerRZ 2 (e1 - ex)) in *.
    set (q := powerRZ 2 ex) in *.
    replace (q * p * / (2 * 1)) with (q * (p / 2)) by field.
    apply Rmult_le_compat_l; lra.
Qed.


(** Relative and absolute error of one rounding. *)
Lemma bra_error (s : bool) (mx : positive) (ex : Z) :
  let E := fexp prec emax (Zpos (digits2_pos mx) + ex) in
  (E < emax - prec)%Z -> (ex <= emax - prec)%Z ->
  let r := binary_round_aux prec emax s (Zpos mx) ex loc_Exact in
  let v := IZR (Zpos mx) * powerRZ 2 ex in
  SFfinite r = true /\
  Rabs (SF2R r - sign_value s * v) <= unit_roundoff * v + half_subnormal /\
  ((-1074 <= ex)%Z -> Rabs (SF2R r - sign_value s * v) <= unit_roundoff * v).
Proof.
  intros E HE Hex r v.
  destruct (bra_value s mx ex HE Hex) as [Hfin Hb].
  fold E r in Hfin, Hb.
  replace (sign_value s * IZR (Z.pos mx) * powerRZ 2 ex)
    with (sign_value s * v) in Hb
    by (unfold v; ring).
  pose proof (digits_value mx ex) as [Hlo _]. fold v in Hlo.
  assert (Hv : 0 < v).
  { pose proof (bpow_pos (Z.pos (digits2_pos mx) - 1 + ex)). lra. }
  assert (Hu : 0 < unit_roundoff) by apply bpow_pos.
  assert (Heta : 0 < half_subnormal) by apply bpow_pos.
  assert (HEdef : E = Z.max (Zpos (digits2_pos mx) + ex - 53) (-1074))
    by reflexivity.
  split; [exact Hfin|].
  destruct (E <=? ex)%Z eqn:Hcmp.
  - split; [|intros _]; nra.
  - apply Z.leb_gt in Hcmp.
    assert (Hnorm : (-1074 < E)%Z -> powerRZ 2 (E - 1) <= unit_roundoff * v).
    { intros HEn.
      replace (E - 1)%Z with (-53 + (Zpos (digits2_pos mx) - 1 + ex))%Z by lia.
      rewrite bpow_add. fold unit_roundoff. nra. }
    split.
    + destruct (Z.eq_dec E (-1074)) as [Heq|Hne].
      * rewrite Heq in Hb.
        change (powerRZ 2 (-1074 - 1)) with half_subnormal in Hb. nra.
      * specialize (Hnorm ltac:(lia)). nra.
    + intros Hexlo. specialize (Hnorm ltac:(lia)). lra.
Qed.

(** *** The operations *)

Lemma iter_xO_value (m p : positive) :
  Zpos (Pos.iter xO m p) = (Zpos m * 2 ^ Zpos p)%Z.
Proof.
  induction p as [|p IH] using Pos.peano_ind.
  - cbn [Pos.iter]. lia.
  - rewrite Pos.iter_succ. rewrite Pos2Z.inj_xO, IH.
    rewrite Pos2Z.inj_succ. rewrite Z.pow_succ_r by lia. ring.
Qed.

Lemma iter_xO_digits (m p : positive) :
  digits2_pos (Pos.iter xO m p) = (digits2_pos m + p)%positive.
Proof.
  induction p as [|p IH] using Pos.peano_ind.
  - cbn [Pos.iter digits2_pos]. lia.
  - rewrite Pos.iter_succ. cbn [digits2_pos]. rewrite IH. lia.
Qed.

Lemma shl_align_value (mx : positive) (ex ez : Z) :
  (ez <= ex)%Z ->
  IZR (Zpos (fst (shl_align mx ex ez))) * powerRZ 2 ez
  = IZR (Zpos mx) * powerRZ 2 ex.
Proof.
  intros Hle. unfold shl_align.
  destruct (ez - ex)%Z as [|p|p] eqn:Hd; cbn [fst].
  - replace ez with ex by lia. reflexivity.
  - lia.
  - rewrite iter_xO_value, mult_IZR, bpow_IZR by lia.
    replace ex with (Zpos p + ez)%Z by lia. rewrite bpow_add. ring.
Qed.

Lemma binary_round_error (s : bool) (mx : positive) (ex : Z) :
  let v := IZR (Zpos mx) * powerRZ 2 ex in
  (-1074 <= ex)%Z -> v < powerRZ 2 1023 ->
  let r := binary_round prec emax s mx ex in
  SFfinite r = true /\ Rabs (SF2R r - sign_value s * v) <= unit_roundoff * v.
Proof.
  intros v Hex Hv r.
  pose proof (digits_value mx ex) as [Hlo _]. fold v in Hlo.
  assert (Hd : (Zpos (digits2_pos mx) - 1 + ex < 1023)%Z)
    by (apply bpow_lt_inv; lra).
  assert (Hv0 : 0 < v).
  { pose proof (bpow_pos (Z.pos (digits2_pos mx) - 1 + ex)). lra. }
  assert (Hu : 0 < unit_roundoff) by apply bpow_pos.
  set (E := fexp prec emax (Zpos (digits2_pos mx) + ex)).
  assert (HEdef : E = Z.max (Zpos (digits2_pos mx) + ex - 53) (-1074))
    by reflexivity.
  unfold r, binary_round, shl_align. fold E.
  destruct (E - ex)%Z as [|p|p] eqn:Hsh.
  - destruct (bra_error s mx ex) as (Hf & _ & Hb);
      [fold E; change (emax - prec)%Z with 971%Z; lia
      |change (emax - prec)%Z with 971%Z; lia|].
    split; [exact Hf|]. apply Hb. exact Hex.
  - destruct (bra_error s mx ex) as (Hf & _ & Hb);
      [fold E; change (emax - prec)%Z with 971%Z; lia
      |change (emax - prec)%Z with 971%Z; lia|].
    split; [exact Hf|]. apply Hb. exact Hex.
  - assert (HE' : fexp prec emax
                    (Zpos (digits2_pos (Pos.iter xO mx p)) + E) = E).
    { rewrite iter_xO_digits. rewrite Pos2Z.inj_add.
      replace (Z.pos (digits2_pos mx) + Z.pos p + E)%Z
        with (Zpos (digits2_pos mx) + ex)%Z by lia.
      reflexivity. }
    destruct (bra_value s (Pos.iter xO mx p) E) as (Hf & Hb);
      [rewrite HE'; change (emax - prec)%Z with 971%Z; lia
      |change (emax - prec)%Z with 971%Z; lia|].
    split; [exact Hf|].
    rewrite HE' in Hb. rewrite Z.leb_refl in Hb.
    replace (sign_value s * v)
      with (sign_value s * IZR (Z.pos (Pos.iter xO mx p)) * powerRZ 2 E).
    + nra.
    + unfold v. rewrite iter_xO_value, mult_IZR, bpow_IZR by lia.
      replace ex with (Zpos p + E)%Z by lia. rewrite bpow_add. ring.
Qed.

Lemma binary_normalize_error (m e : Z) (szero : bool) :
  let v := IZR m * powerRZ 2 e in
  (-1074 <= e)%Z -> Rabs v < powerRZ 2 1023 ->
  let r := binary_normalize prec emax m e szero in
  SFfinite r = true /\ Rabs (SF2R r - v) <= unit_roundoff * Rabs v.
Proof.
  intros v He Hv r. unfold r, binary_normalize.
  destruct m as [|q|q].
  - split; [reflexivity|].
    assert (Hv0 : v = 0) by (unfold v; ring).
    rewrite Hv0. cbn [SF2R]. rewrite Rminus_diag, Rabs_R0.
    rewrite Rmult_0_r. apply Rle_refl.
  - assert (Hv0 : 0 < v).
    { unfold v. apply Rmult_lt_0_compat; [apply IZR_lt; lia|apply bpow_pos]. }
    rewrite (Rabs_pos_eq v) in Hv |- * by (apply Rlt_le; exact Hv0).
    destruct (binary_round_error false q e He Hv) as [Hf Hb].
    split; [exact Hf|]. unfold sign_value in Hb. rewrite Rmult_1_l in Hb.
    exact Hb.
  - assert (Hv0 : v = - (IZR (Zpos q) * powerRZ 2 e)).
    { unfold v. change (Z.neg q) with (- Zpos q)%Z. rewrite opp_IZR. ring. }
    assert (Hp : 0 < IZR (Zpos q) * powerRZ 2 e).
    { apply Rmult_lt_0_compat; [apply IZR_lt; lia|apply bpow_pos]. }
    rewrite Hv0 in Hv |- *. rewrite Rabs_Ropp in Hv |- *.
    rewrite (Rabs_pos_eq (IZR (Z.pos q) * powerRZ 2 e)) in Hv |- *
      by (apply Rlt_le; exact Hp).
    destruct (binary_round_error true q e He Hv) as [Hf Hb].
    split; [exact Hf|]. unfold sign_value in Hb.
    replace (-1 * (IZR (Z.pos q) * powerRZ 2 e))
      with (- (IZR (Z.pos q) * powerRZ 2 e)) in Hb by ring.
    exact Hb.
Qed.

Lemma valid_finite (s : bool) (m : positive) (e : Z) :
  valid_binary (S754_finite s m e) = true ->
  (-1074 <= e <= 971)%Z /\ (Zpos (digits2_pos m) <= 53)%Z /\
  (e = (-1074)%Z \/ Zpos (digits2_pos m) = 53%Z).
Proof.
  cbn [valid_binary]. unfold bounded, canonical_mantissa.
  intros H. apply andb_prop in H. destruct H as [Hc Hb].
  apply Z.leb_le in Hb. change (emax - prec)%Z with 971%Z in Hb.
  apply Z.eqb_eq in Hc. rewrite fexp_eq in Hc. lia.
Qed.

Lemma IZR_cond_Zopp (s : bool) (z : Z) :
  IZR (cond_Zopp s z) = sign_value s * IZR z.
Proof.
  destruct s; cbn [cond_Zopp sign_value].
  - rewrite opp_IZR. ring.
  - ring.
Qed.

Lemma SFadd_error (x y : spec_float) :
  valid_binary x = true -> valid_binary y = true ->
  SFfinite x = true -> SFfinite y = true ->
  Rabs (SF2R x + SF2R y) < powerRZ 2 1023 ->
  SFfinite (SFadd prec emax x y) = true /\
  Rabs (SF2R (SFadd prec emax x y) - (SF2R x + SF2R y))
    <= unit_roundoff * Rabs (SF2R x + SF2R y).
Proof.
  intros Hvx Hvy Hfx Hfy Hb.
  assert (Hu : 0 < unit_roundoff) by apply bpow_pos.
  destruct x as [sx|sx| |sx mx ex]; try discriminate;
    destruct y as [sy|sy| |sy my ey]; try discriminate.
  - split; [destruct sx, sy; reflexivity|].
    replace (SF2R (SFadd prec emax (S754_zero sx) (S754_zero sy))) with 0
      by (destruct sx, sy; reflexivity).
    cbn [SF2R]. rewrite Rplus_0_r, Rminus_diag, Rabs_R0. lra.
  - cbn [SFadd SF2R SFfinite]. split; [reflexivity|].
    rewrite Rplus_0_l, Rminus_diag, Rabs_R0.
    apply Rmult_le_pos; [lra|apply Rabs_pos].
  - cbn [SFadd SF2R SFfinite]. split; [reflexivity|].
    rewrite Rplus_0_r, Rminus_diag, Rabs_R0.
    apply Rmult_le_pos; [lra|apply Rabs_pos].
  - destruct (valid_finite _ _ _ Hvx) as (Hex & _ & _).
    destruct (valid_finite _ _ _ Hvy) as (Hey & _ & _).
    cbn [SFadd]. cbv zeta.
    set (ez := Z.min ex ey).
    set (m := (cond_Zopp sx (Z.pos (fst (shl_align mx ex ez)))
               + cond_Zopp sy (Z.pos (fst (shl_align my ey ez))))%Z).
    assert (Hm : IZR m * powerRZ 2 ez
                 = SF2R (S754_finite sx mx ex) + SF2R (S754_finite sy my ey)).
    { unfold m. rewrite plus_IZR, !IZR_cond_Zopp. cbn [SF2R].
      rewrite Rmult_plus_distr_r, !Rmult_assoc.
      rewrite !shl_align_value by (unfold ez; lia). reflexivity. }
    rewrite <- Hm in Hb |- *.
    apply binary_normalize_error; [unfold ez; lia|exact Hb].
Qed.

Lemma SFsub_error (x y : spec_float) :
  valid_binary x = true -> valid_binary y = true ->
  SFfinite x = true -> SFfinite y = true ->
  Rabs (SF2R x - SF2R y) < powerRZ 2 1023 ->
  SFfinite (SFsub prec emax x y) = true /\
  Rabs (SF2R (SFsub prec emax x y) - (SF2R x - SF2R y))
    <= unit_roundoff * Rabs (SF2R x - SF2R y).
Proof.
  intros Hvx Hvy Hfx Hfy Hb.
  assert (Hu : 0 < unit_roundoff) by apply bpow_pos.
  destruct x as [sx|sx| |sx mx ex]; try discriminate;
    destruct y as [sy|sy| |sy my ey]; try discriminate.
  - split; [destruct sx, sy; reflexivity|].
    replace (SF2R (SFsub prec emax (S754_zero sx) (S754_zero sy))) with 0
      by (destruct sx, sy; reflexivity).
    cbn [SF2R]. rewrite Rminus_diag, Rminus_diag, Rabs_R0. lra.
  - cbn [SFsub SF2R SFfinite]. split; [reflexivity|].
    replace (sign_value (negb sy) * IZR (Z.pos my) * powerRZ 2 ey -
             (0 - sign_value sy * IZR (Z.pos my) * powerRZ 2 ey)) with 0
      by (destruct sy; unfold sign_value; cbn [negb]; ring).
    rewrite Rabs_R0. apply Rmult_le_pos; [lra|apply Rabs_pos].
  - cbn [SFsub SF2R SFfinite]. split; [reflexivity|].
    rewrite Rminus_0_r, Rminus_diag, Rabs_R0.
    apply Rmult_le_pos; [lra|apply Rabs_pos].
  - destruct (valid_finite _ _ _ Hvx) as (Hex & _ & _).
    destruct (valid_finite _ _ _ Hvy) as (Hey & _ & _).
    cbn [SFsub]. cbv zeta.
    set (ez := Z.min ex ey).
    set (m := (cond_Zopp sx (Z.pos (fst (shl_align mx ex ez)))
               - cond_Zopp sy (Z.pos (fst (shl_align my ey ez))))%Z).
    assert (Hm : IZR m * powerRZ 2 ez
                 = SF2R (S754_finite sx mx ex) - SF2R (S754_finite sy my ey)).
    { unfold m. rewrite minus_IZR, !IZR_cond_Zopp. cbn [SF2R].
      unfold Rminus. rewrite Rmult_plus_distr_r.
      rewrite Ropp_mult_distr_l_reverse, !Rmult_assoc.
      rewrite !shl_align_value by (unfold ez; lia). reflexivity. }
    rewrite <- Hm in Hb |- *.
    apply binary_normalize_error; [unfold ez; lia|exact Hb].
Qed.

Lemma sign_value_xorb (a b : bool) :
  sign_value (xorb a b) = sign_value a * sign_value b.
Proof. destruct a, b; unfold sign_value; cbn [xorb]; ring. Qed.

Lemma SF2R_abs (s : bool) (m : positive) (e : Z) :
  Rabs (SF2R (S754_finite s m e)) = IZR (Zpos m) * powerRZ 2 e.
Proof.
  cbn [SF2R]. rewrite Rmult_assoc, sign_value_abs. apply Rabs_pos_eq.
  apply Rmult_le_pos; [apply IZR_le; lia|apply Rlt_le, bpow_pos].
Qed.

Lemma SFmul_error (x y : spec_float) :
  valid_binary x = true -> valid_binary y = true ->
  SFfinite x = true -> SFfinite y = true ->
  Rabs (SF2R y) < 2 ->
  Rabs (SF2R x * SF2R y) < powerRZ 2 1023 ->
  SFfinite (SFmul prec emax x y) = true /\
  Rabs (SF2R (SFmul prec emax x y) - SF2R x * SF2R y)
    <= unit_roundoff * Rabs (SF2R x * SF2R y) + half_subnormal.
Proof.
  intros Hvx Hvy Hfx Hfy Hy Hb.
  assert (Hu : 0 < unit_roundoff) by apply bpow_pos.
  assert (Heta : 0 < half_subnormal) by apply bpow_pos.
  destruct x as [sx|sx| |sx mx ex]; try discriminate;
    destruct y as [sy|sy| |sy my ey]; try discriminate;
    try (cbn [SFmul SF2R SFfinite]; split; [reflexivity|];
         rewrite ?Rmult_0_l, ?Rmult_0_r, Rminus_diag, Rabs_R0; lra).
  destruct (valid_finite _ _ _ Hvx) as (Hex & _ & _).
  destruct (valid_finite _ _ _ Hvy) as (Hey & Hdy & Hcy).
  rewrite Rabs_mult in Hb |- *. rewrite !SF2R_abs in Hb |- *.
  rewrite SF2R_abs in Hy.
  cbn [SFmul].
  set (v := IZR (Z.pos (mx * my)) * powerRZ 2 (ex + ey)).
  assert (Hv : v = IZR (Z.pos mx) * powerRZ 2 ex
                   * (IZR (Z.pos my) * powerRZ 2 ey)).
  { unfold v. rewrite Pos2Z.inj_mul, mult_IZR, bpow_add. ring. }
  rewrite <- Hv in Hb |- *.
  assert (Hey0 : (ey <= 0)%Z).
  { destruct Hcy as [->|Hd53]; [lia|].
    pose proof (digits_value my ey) as [Hlo _]. rewrite Hd53 in Hlo.
    assert (powerRZ 2 (53 - 1 + ey) < powerRZ 2 1)
      by (change (powerRZ 2 1) with (2 * 1); lra).
    apply bpow_lt_inv in H. lia. }
  pose proof (digits_value (mx * my) (ex + ey)) as [Hlo _]. fold v in Hlo.
  assert (Hd : (Zpos (digits2_pos (mx * my)) - 1 + (ex + ey) < 1023)%Z)
    by (apply bpow_lt_inv; lra).
  destruct (bra_error (xorb sx sy) (mx * my) (ex + ey)) as (Hf & Hberr & _).
  { rewrite fexp_eq. change (emax - prec)%Z with 971%Z. lia. }
  { change (emax - prec)%Z with 971%Z. lia. }
  split; [exact Hf|]. fold v in Hberr.
  replace (SF2R (S754_finite sx mx ex) * SF2R (S754_finite sy my ey))
    with (sign_value (xorb sx sy) * v); [exact Hberr|].
  rewrite sign_value_xorb, Hv. cbn [SF2R]. ring.
Qed.

(** *** Doubles *)

Lemma digits_upper (m : positive) :
  (Zpos (digits2_pos m) <= 53)%Z -> (Zpos m < 2 ^ 53)%Z.
Proof.
  intros Hd. pose proof (digits2_pos_bounds m) as [_ Hhi].
  assert (2 ^ Zpos (digits2_pos m) <= 2 ^ 53)%Z by (apply pow2_le; lia).
  lia.
Qed.

(** Comparison with a power of two [2^(ec+52)], whose mantissa is [2^52]. *)
Lemma SFltb_pow2_value (m : positive) (e ec : Z) :
  (Zpos (digits2_pos m) <= 53)%Z ->
  SFltb (S754_finite false m e) (S754_finite false 4503599627370496 ec)
    = true ->
  IZR (Zpos m) * powerRZ 2 e < powerRZ 2 (ec + 52).
Proof.
  intros Hd. apply digits_upper in Hd.
  unfold SFltb, SFcompare.
  pose proof (bpow_pos e) as He.
  destruct (Z.compare e ec) eqn:Hc; try discriminate.
  - apply Z.compare_eq in Hc. subst ec.
    destruct (Pos.compare_cont Eq m 4503599627370496) eqn:Hm; try discriminate.
    intros _.
    assert (Hm' : (m < 4503599627370496)%positive) by exact Hm.
    clear Hm.
    assert (Hz : (Zpos m < 2 ^ 52)%Z).
    { change (2 ^ 52)%Z with 4503599627370496%Z. exact Hm'. }
    clear Hm'.
    apply IZR_lt in Hz. rewrite bpow_IZR in Hz by lia.
    rewrite bpow_add, Rmult_comm.
    apply Rmult_lt_compat_l; assumption.
  - intros _. apply Z.compare_lt_iff in Hc.
    apply IZR_lt in Hd. rewrite bpow_IZR in Hd by lia.
    apply Rlt_le_trans with (powerRZ 2 53 * powerRZ 2 e).
    + apply Rmult_lt_compat_r; assumption.
    + rewrite <- bpow_add. apply bpow_le. change (e < ec)%Z in Hc. lia.
Qed.

Lemma double_value_one : double_value 1 = 1.
Proof.
  unfold double_value.
  replace (Prim2SF 1) with (S754_finite false 4503599627370496 (-52))
    by reflexivity.
  cbn [SF2R]. unfold sign_value.
  change 4503599627370496%Z with (2 ^ 52)%Z.
  rewrite bpow_IZR by lia. rewrite Rmult_1_l, <- bpow_add.
  reflexivity.
Qed.

(** A double strictly between 0 and 1. *)
Lemma between_zero_one (a : float) :
  (0 <? a)%float = true -> (a <? 1)%float = true ->
  SFfinite (Prim2SF a) = true /\ 0 < double_value a < 1.
Proof.
  rewrite !ltb_spec. unfold double_value.
  pose proof (Prim2SF_valid a) as Hv.
  replace (Prim2SF 0) with (S754_zero false) by reflexivity.
  replace (Prim2SF 1) with (S754_finite false 4503599627370496 (-52))
    by reflexivity.
  destruct (Prim2SF a) as [s|s| |s m e]; try discriminate.
  - destruct s; discriminate.
  - destruct s; [discriminate|]. intros _ Hlt.
    destruct (valid_finite _ _ _ Hv) as (_ & Hd & _).
    pose proof (SFltb_pow2_value m e (-52) Hd Hlt) as Hb.
    change (powerRZ 2 (-52 + 52)) with 1 in Hb.
    split; [reflexivity|]. cbn [SF2R]. unfold sign_value. rewrite Rmult_1_l.
    split; [|exact Hb].
    apply Rmult_lt_0_compat; [apply IZR_lt; lia|apply bpow_pos].
Qed.

(** A double of magnitude below 2^1022. *)
Lemma below_huge (a : float) :
  (abs a <? 0x1p1022)%float = true ->
  SFfinite (Prim2SF a) = true /\ Rabs (double_value a) < powerRZ 2 1022.
Proof.
  rewrite ltb_spec, abs_spec. unfold double_value.
  pose proof (Prim2SF_valid a) as Hv.
  replace (Prim2SF 0x1p1022) with (S754_finite false 4503599627370496 970)
    by reflexivity.
  destruct (Prim2SF a) as [s|s| |s m e]; try discriminate.
  - intros _. split; [reflexivity|]. cbn [SF2R]. rewrite Rabs_R0.
    apply bpow_pos.
  - cbn [SFabs]. intros Hlt.
    destruct (valid_finite _ _ _ Hv) as (_ & Hd & _).
    pose proof (SFltb_pow2_value m e 970 Hd Hlt) as Hb.
    change (970 + 52)%Z with 1022%Z in Hb.
    split; [reflexivity|]. rewrite SF2R_abs. exact Hb.
Qed.

Lemma add_error (a b : float) :
  SFfinite (Prim2SF a) = true -> SFfinite (Prim2SF b) = true ->
  Rabs (double_value a + double_value b) < powerRZ 2 1023 ->
  SFfinite (Prim2SF (a + b)) = true /\
  Rabs (double_value (a + b) - (double_value a + double_value b))
    <= unit_roundoff * Rabs (double_value a + double_value b).
Proof.
  unfold double_value. rewrite add_spec.
  apply SFadd_error; apply Prim2SF_valid.
Qed.

Lemma sub_error (a b : float) :
  SFfinite (Prim2SF a) = true -> SFfinite (Prim2SF b) = true ->
  Rabs (double_value a - double_value b) < powerRZ 2 1023 ->
  SFfinite (Prim2SF (a - b)) = true /\
  Rabs (double_value (a - b) - (double_value a - double_value b))
    <= unit_roundoff * Rabs (double_value a - double_value b).
Proof.
  unfold double_value. rewrite sub_spec.
  apply SFsub_error; apply Prim2SF_valid.
Qed.

Lemma mul_error (a b : float) :
  SFfinite (Prim2SF a) = true -> SFfinite (Prim2SF b) = true ->
  Rabs (double_value b) < 2 ->
  Rabs (double_value a * double_value b) < powerRZ 2 1023 ->
  SFfinite (Prim2SF (a * b)) = true /\
  Rabs (double_value (a * b) - double_value a * double_value b)
    <= unit_roundoff * Rabs (double_value a * double_value b) + half_subnormal.
Proof.
  unfold double_value. rewrite mul_spec.
  apply SFmul_error; apply Prim2SF_valid.
Qed.

Lemma u_bounds : 0 < unit_roundoff /\ unit_roundoff <= / 4.
Proof.
  split; [apply bpow_pos|].
  apply Rle_trans with (powerRZ 2 (-2)); [apply bpow_le; lia|].
  unfold powerRZ. simpl. lra.
Qed.

(** *** The beam split *)

Lemma Rabs_le_bounds (a b : R) : Rabs a <= b -> - b <= a <= b.
Proof. unfold Rabs. destruct (Rcase_abs a); lra. Qed.

Lemma pow2_1023 : powerRZ 2 1023 = 2 * powerRZ 2 1022.
Proof.
  replace 1023%Z with (1 + 1022)%Z by lia. rewrite bpow_add.
  f_equal. unfold powerRZ. simpl. lra.
Qed.

Lemma pow2_1022_large : 16 <= powerRZ 2 1022.
Proof.
  apply Rle_trans with (powerRZ 2 4); [|apply bpow_le; lia].
  unfold powerRZ. simpl. lra.
Qed.

Lemma eta_bounds : 0 < half_subnormal /\ half_subnormal <= 1.
Proof.
  split; [apply bpow_pos|].
  apply Rle_trans with (powerRZ 2 0); [apply bpow_le; lia|].
  unfold powerRZ. lra.
Qed.

Lemma pow2_m51 : powerRZ 2 (-51) = 4 * unit_roundoff.
Proof.
  unfold unit_roundoff. replace (-51)%Z with (2 + -53)%Z by lia.
  rewrite bpow_add.
  f_equal. unfold powerRZ. simpl. lra.
Qed.

(** The real arithmetic of the split: three roundings of relative size [u]
    and two absolute errors [eta]. *)
Lemma split_algebra_nonneg (u eta M i rho y t r s : R) :
  0 < u <= / 4 -> 0 < eta <= 1 -> 16 <= M ->
  0 <= i < M -> 0 < rho < 1 ->
  - (u * (1 - rho)) <= y - (1 - rho) <= u * (1 - rho) ->
  - (u * (i * y) + eta) <= t - i * y <= u * (i * y) + eta ->
  - (u * (i * rho) + eta) <= r - i * rho <= u * (i * rho) + eta ->
  Rabs (t + r) < 2 * M /\
  (Rabs (s - (t + r)) <= u * Rabs (t + r) ->
   Rabs (s - i) <= 4 * u * i + 3 * eta).
Proof.
  intros [Hu0 Hu4] [He0 He1] HM [Hi0 HiM] [Hr0 Hr1] Hy Ht Hr.
  set (A := i * y) in *. set (B := i * rho) in *.
  set (a := u * i). set (b := u * B) in *. set (c := u * A) in *.
  assert (HB : 0 <= B <= i) by (unfold B; nra).
  assert (Ha : 0 <= a <= i / 4) by (unfold a; nra).
  assert (Hb : 0 <= b <= a) by (unfold a, b; nra).
  assert (HA : - (a - b) <= A - (i - B) <= a - b).
  { unfold a, b, c, A, B.
    replace (i * y - (i - i * rho)) with (i * (y - (1 - rho))) by ring.
    replace (u * i - u * (i * rho)) with (i * (u * (1 - rho))) by ring.
    destruct Hy as [Hy1 Hy2]. split.
    - rewrite Ropp_mult_distr_r. apply Rmult_le_compat_l; assumption.
    - apply Rmult_le_compat_l; assumption. }
  assert (Hc : 0 <= c <= (a - b) * (5 / 4)).
  { assert (HA0 : 0 <= A <= (i - B) + (a - b))
      by (split; [unfold a, b, c, A, B in *; nra | lra]).
    assert (Hcc : c <= u * ((i - B) + (a - b)))
      by (unfold c; apply Rmult_le_compat_l; lra).
    assert (Hab : u * (a - b) <= (a - b) / 4) by nra.
    split; [unfold c; apply Rmult_le_pos; lra|].
    replace (u * (i - B + (a - b))) with ((a - b) + u * (a - b)) in Hcc
      by (unfold a, b; ring).
    lra. }
  assert (Hd : - (9 / 4 * a + 2 * eta) <= t + r - i <= 9 / 4 * a + 2 * eta)
    by lra.
  assert (Htr : Rabs (t + r) <= i + (9 / 4 * a + 2 * eta)).
  { apply Rabs_le. lra. }
  split; [lra|].
  intros Hs.
  assert (Hus : u * Rabs (t + r) <= a + (9 / 4 * a + 2 * eta) / 4).
  { apply Rle_trans with (u * (i + (9 / 4 * a + 2 * eta))).
    - apply Rmult_le_compat_l; lra.
    - rewrite Rmult_plus_distr_l. fold a.
      assert (u * (9 / 4 * a + 2 * eta) <= (9 / 4 * a + 2 * eta) / 4) by nra.
      lra. }
  apply Rabs_le_bounds in Hs.
  apply Rabs_le. fold a. replace (4 * u * i) with (4 * a) by (unfold a; ring).
  lra.
Qed.

Lemma split_algebra (u eta M i rho y t r s : R) :
  0 < u <= / 4 -> 0 < eta <= 1 -> 16 <= M ->
  Rabs i < M -> 0 < rho < 1 ->
  - (u * (1 - rho)) <= y - (1 - rho) <= u * (1 - rho) ->
  Rabs (t - i * y) <= u * Rabs (i * y) + eta ->
  Rabs (r - i * rho) <= u * Rabs (i * rho) + eta ->
  Rabs (t + r) < 2 * M /\
  (Rabs (s - (t + r)) <= u * Rabs (t + r) ->
   Rabs (s - i) <= 4 * u * Rabs i + 3 * eta).
Proof.
  intros Hu He HM Hi Hrho Hy Ht Hr.
  assert (Hy0 : 0 <= y) by nra.
  destruct (Rle_dec 0 i) as [Hpos|Hneg].
  - rewrite (Rabs_pos_eq i) in * by exact Hpos.
    rewrite (Rabs_pos_eq (i * y)) in Ht by nra.
    rewrite (Rabs_pos_eq (i * rho)) in Hr by nra.
    apply Rabs_le_bounds in Ht. apply Rabs_le_bounds in Hr.
    apply split_algebra_nonneg with (rho := rho) (y := y);
      try assumption. split; assumption.
  - assert (Hi0 : i < 0) by lra.
    rewrite (Rabs_left i) in * by exact Hi0.
    replace (i * y) with (- (- i * y)) in Ht by ring.
    replace (i * rho) with (- (- i * rho)) in Hr by ring.
    rewrite Rabs_Ropp in Ht, Hr.
    rewrite (Rabs_pos_eq (- i * y)) in Ht by nra.
    rewrite (Rabs_pos_eq (- i * rho)) in Hr by nra.
    apply Rabs_le_bounds in Ht. apply Rabs_le_bounds in Hr.
    destruct (split_algebra_nonneg u eta M (- i) rho y (- t) (- r) (- s))
      as [Hsum Hfinal]; try assumption; try lra.
    replace (- t + - r) with (- (t + r)) in Hsum, Hfinal by ring.
    replace (- s - - (t + r)) with (- (s - (t + r))) in Hfinal by ring.
    replace (- s - - i) with (- (s - i)) in Hfinal by ring.
    rewrite !Rabs_Ropp in Hfinal. rewrite Rabs_Ropp in Hsum.
    split; assumption.
Qed.

(** Splitting a double of magnitude below 2^1022 by a reflectivity
    strictly between 0 and 1 and adding the two parts gives a finite double
    within [2^-51 * |intensity| + 3 * 2^-1075] of the original. *)
Lemma split_sum_error (inten refl : float) :
  (0 <? refl)%float = true -> (refl <? 1)%float = true ->
  (abs inten <? 0x1p1022)%float = true ->
  SFfinite (Prim2SF (inten * (1 - refl) + inten * refl)) = true /\
  Rabs (double_value (inten * (1 - refl) + inten * refl) - double_value inten)
    <= powerRZ 2 (-51) * Rabs (double_value inten) + 3 * powerRZ 2 (-1075).
Proof.
  intros H0R HR1 HIM.
  destruct (between_zero_one refl H0R HR1) as [HfR [Hrho0 Hrho1]].
  destruct (below_huge inten HIM) as [HfI HiM].
  pose proof u_bounds as [Hu0 Hu4].
  pose proof eta_bounds as [Heta0 Heta1].
  pose proof pow2_1022_large as HM.
  set (M := powerRZ 2 1022) in *.
  set (rho := double_value refl) in *. set (i := double_value inten) in *.
  pose proof (Rabs_pos i) as Hi0.
  (* 1 - reflect *)
  destruct (sub_error 1 refl) as [Hfy Hy]; [reflexivity|exact HfR| |].
  { rewrite double_value_one. fold rho. rewrite Rabs_pos_eq by lra.
    rewrite pow2_1023. fold M. lra. }
  rewrite double_value_one in Hy. fold rho in Hy.
  rewrite (Rabs_pos_eq (1 - rho)) in Hy by lra.
  apply Rabs_le_bounds in Hy.
  set (y := double_value (1 - refl)) in *.
  assert (Hy0 : 0 <= y < 2) by nra.
  (* intensity * (1 - reflect) *)
  destruct (mul_error inten (1 - refl)) as [Hft Ht]; [exact HfI|exact Hfy| | |].
  { fold y. rewrite Rabs_pos_eq; lra. }
  { fold y i. rewrite Rabs_mult, (Rabs_pos_eq y) by lra.
    rewrite pow2_1023. fold M. nra. }
  fold y i in Ht.
  set (t := double_value (inten * (1 - refl))) in *.
  (* intensity * reflect *)
  destruct (mul_error inten refl) as [Hfr Hr]; [exact HfI|exact HfR| | |].
  { fold rho. rewrite Rabs_pos_eq; lra. }
  { fold rho i. rewrite Rabs_mult, (Rabs_pos_eq rho) by lra.
    rewrite pow2_1023. fold M. nra. }
  fold rho i in Hr.
  set (r := double_value (inten * refl)) in *.
  (* the sum *)
  destruct (split_algebra unit_roundoff half_subnormal M i rho y t r
              (double_value (inten * (1 - refl) + inten * refl)))
    as [Hsum Hfinal]; try (split; assumption); try assumption.
  destruct (add_error (inten * (1 - refl)) (inten * refl)) as [Hfs Hs];
    [exact Hft|exact Hfr| |].
  { fold t r. rewrite pow2_1023. fold M. exact Hsum. }
  split; [exact Hfs|].
  fold t r in Hs. rewrite pow2_m51. exact (Hfinal Hs).
Qed.

Local Close Scope R_scope.

(** C4, as stated, fails on the sum: with reflectivity 0.2 (the double
    nearest to it) and a parent intensity of 3, the call is a beam split with
    a valid intersection, and the two child intensities, added as doubles,
    do not compare equal to 3. *)
Lemma C4_split_sum_is_rounded :
  let self := ideal_lens 0x1.999999999999ap-3 in
  hit_point self ray_bright = Return (mkVector3d 5 0 0) /\
  is_no_hit (mkVector3d 5 0 0) = false /\
  (c2 (_direction ray_bright) =? 0) = false /\
  (0 <? reflectivity_at self ray_bright) = true /\
  (reflectivity_at self ray_bright <? 1) = true /\
  exists t r,
    IdealSurface.propagate self ray_bright 1 1.5 = Return [t; r] /\
    (intensity t + intensity r =? intensity ray_bright) = false.
Proof.
  cbv zeta. repeat split; try (vm_compute; reflexivity).
  eexists; eexists; split; [vm_compute; reflexivity|].
  vm_compute; reflexivity.
Qed.

(** C4, amended: in a beam-splitting call (reflectivity strictly between 0
    and 1, valid intersection, direction not parallel to the plane) on a ray
    whose intensity has magnitude below 2^1022, propagate returns a
    transmitted and a reflected child whose intensities are the double
    products intensity * (1 - R) and intensity * R, and energy is conserved
    within floating tolerance: the double sum of the two child intensities
    is finite and differs from the parent's intensity by at most
    [2^-51 * |intensity| + 3 * 2^-1075] (four units of relative rounding
    error, and an absolute term that matters for subnormal products
    only). *)
Theorem C4_split_conserves_energy_within_tolerance
    (self : IdealSurface.t) (ray : Ray)
    (ni nr : double) (p : Vector3d)
    (Hhit : hit_point self ray = Return p)
    (Hvalid : is_no_hit p = false)
    (Hrz : (c2 (_direction ray) =? 0) = false)
    (Hlow : (0 <? reflectivity_at self ray) = true)
    (Hhigh : (reflectivity_at self ray <? 1) = true)
    (Hbound : (fabs (intensity ray) <? 0x1p1022) = true) :
  exists t r,
    IdealSurface.propagate self ray ni nr = Return [t; r] /\
    intensity t = intensity ray * (1 - reflectivity_at self ray) /\
    intensity r = intensity ray * reflectivity_at self ray /\
    isfinite (intensity t + intensity r) = true /\
    (Rabs (double_value (intensity t + intensity r)
           - double_value (intensity ray))
     <= powerRZ 2 (-51) * Rabs (double_value (intensity ray))
        + 3 * powerRZ 2 (-1075))%R.
Proof.
  rewrite (propagate_on_hit self ray ni nr p Hhit Hvalid Hrz). cbv zeta.
  rewrite (ltb_asym _ _ Hhigh), (ltb_asym _ _ Hlow).
  rewrite (proj2 (ltb_neq _ _ Hlow)), (proj1 (ltb_neq _ _ Hhigh)).
  simpl orb. cbv iota.
  eexists; eexists; split; [reflexivity|].
  cbn [intensity].
  split; [reflexivity|]. split; [reflexivity|].
  exact (split_sum_error (intensity ray) (reflectivity_at self ray)
           Hlow Hhigh Hbound).
Qed.

(** With reflectivity 0.5 and intensity 3 every operation is exact and the
    two child intensities do add up to the parent's. *)
Example split_sum_exact_at_half :
  exists t r,
    IdealSurface.propagate (ideal_lens 0.5) ray_bright 1 1.5 = Return [t; r] /\
    intensity t + intensity r = intensity ray_bright.
Proof.
  eexists; eexists; split; [vm_compute; reflexivity|].
  vm_compute. reflexivity.
Qed.

Lemma C4_split_conserves_energy_within_tolerance_witness :
  let self := ideal_lens 0x1.999999999999ap-3 in
  exists t r,
    IdealSurface.propagate self ray_bright 1 1.5 = Return [t; r] /\
    intensity t
      = intensity ray_bright * (1 - reflectivity_at self ray_bright) /\
    intensity r = intensity ray_bright * reflectivity_at self ray_bright /\
    isfinite (intensity t + intensity r) = true /\
    (Rabs (double_value (intensity t + intensity r)
           - double_value (intensity ray_bright))
     <= powerRZ 2 (-51) * Rabs (double_value (intensity ray_bright))
        + 3 * powerRZ 2 (-1075))%R.
Proof.
  cbv zeta.
  apply (C4_split_conserves_energy_within_tolerance
           (ideal_lens 0x1.999999999999ap-3) ray_bright 1 1.5
           (mkVector3d 5 0 0));
    vm_compute; reflexivity.
Defined.

(** C6: with a valid intersection and a direction not parallel to the
    plane, propagate returns exactly one child (transmitted, index
    n_transmitted) when the reflectivity equals 0, exactly one child
    (reflected, index n_incident) when it equals 1, and exactly two children
    (transmitted with n_transmitted, then reflected with n_incident) when it
    lies strictly between 0 and 1. *)
Theorem C6_children_by_reflectivity (self : IdealSurface.t) (ray : Ray)
    (ni nr : double) (p : Vector3d)
    (Hhit : hit_point self ray = Return p)
    (Hvalid : is_no_hit p = false)
    (Hrz : (c2 (_direction ray) =? 0) = false) :
  ((reflectivity_at self ray =? 0) = true ->
     exists t,
       IdealSurface.propagate self ray ni nr = Return [t] /\
       _direction t = transmitted_direction self ray p /\ n t = nr) /\
  ((reflectivity_at self ray =? 1) = true ->
     exists r,
       IdealSurface.propagate self ray ni nr = Return [r] /\
       _direction r = reflected_direction self ray p /\ n r = ni) /\
  ((0 <? reflectivity_at self ray) = true ->
   (reflectivity_at self ray <? 1) = true ->
     exists t r,
       IdealSurface.propagate self ray ni nr = Return [t; r] /\
       _direction t = transmitted_direction self ray p /\ n t = nr /\
       _direction r = reflected_direction self ray p /\ n r = ni).
Proof.
  rewrite (propagate_on_hit self ray ni nr p Hhit Hvalid Hrz). cbv zeta.
  split; [|split].
  - intros H0.
    rewrite (eqb_zero_not_above_one _ H0), (proj1 (eqb_ltb _ _ H0)), H0.
    simpl orb. cbv iota. eexists; split; [reflexivity|]. split; reflexivity.
  - intros H1. apply eqb_one_eq in H1. rewrite H1.
    change ((1 <? 1) || (1 <? 0)) with false.
    change (1 =? 0) with false. change (1 =? 1) with true. cbv iota.
    eexists; split; [reflexivity|]. split; reflexivity.
  - intros Hlow Hhigh.
    rewrite (ltb_asym _ _ Hhigh), (ltb_asym _ _ Hlow).
    rewrite (proj2 (ltb_neq _ _ Hlow)), (proj1 (ltb_neq _ _ Hhigh)).
    simpl orb. cbv iota.
    eexists; eexists; split; [reflexivity|]. repeat split.
Qed.

Lemma C6_children_by_reflectivity_witness :
  (exists t,
     IdealSurface.propagate (ideal_lens 0) ray_off_axis 1 1.5 = Return [t] /\
     _direction t
       = transmitted_direction (ideal_lens 0) ray_off_axis (mkVector3d 5 0 0) /\
     n t = 1.5) /\
  (exists r,
     IdealSurface.propagate (ideal_lens 1) ray_off_axis 1 1.5 = Return [r] /\
     _direction r
       = reflected_direction (ideal_lens 1) ray_off_axis (mkVector3d 5 0 0) /\
     n r = 1) /\
  (exists t r,
     IdealSurface.propagate (ideal_lens 0.5) ray_off_axis 1 1.5
       = Return [t; r] /\
     _direction t
       = transmitted_direction (ideal_lens 0.5) ray_off_axis (mkVector3d 5 0 0) /\
     n t = 1.5 /\
     _direction r
       = reflected_direction (ideal_lens 0.5) ray_off_axis (mkVector3d 5 0 0) /\
     n r = 1).
Proof.
  split; [|split].
  - apply (C6_children_by_reflectivity (ideal_lens 0) ray_off_axis 1 1.5
             (mkVector3d 5 0 0)); vm_compute; reflexivity.
  - apply (C6_children_by_reflectivity (ideal_lens 1) ray_off_axis 1 1.5
             (mkVector3d 5 0 0)); vm_compute; reflexivity.
  - apply (C6_children_by_reflectivity (ideal_lens 0.5) ray_off_axis 1 1.5
             (mkVector3d 5 0 0)); vm_compute; reflexivity.
Defined.

(** A NaN reflectivity is neither above 1 nor below 0: it passes the range
    test and takes the beam-splitting branch. *)
Example nan_reflectivity_is_not_refused :
  exists t r,
    IdealSurface.propagate (ideal_lens nan) ray_off_axis 1 1.5
      = Return [t; r].
Proof. eexists; eexists; vm_compute; reflexivity. Qed.

(** C7, as stated, fails for a reflectivity that is not a number: on the
    sample lens with reflectivity NaN the ray [ray_off_axis] has a valid
    intersection and a direction not parallel to the plane, the reflectivity
    does not lie in [0,1] (it is neither at least 0 nor at most 1), and
    propagate raises nothing: it returns two children. *)
Lemma C7_nan_reflectivity_raises_nothing :
  let self := ideal_lens nan in
  hit_point self ray_off_axis = Return (mkVector3d 5 0 0) /\
  is_no_hit (mkVector3d 5 0 0) = false /\
  (c2 (_direction ray_off_axis) =? 0) = false /\
  (0 <=? reflectivity_at self ray_off_axis)
    && (reflectivity_at self ray_off_axis <=? 1) = false /\
  exists t r,
    IdealSurface.propagate self ray_off_axis 1 1.5 = Return [t; r].
Proof.
  cbv zeta. repeat split; try (vm_compute; reflexivity).
  eexists; eexists; vm_compute; reflexivity.
Qed.

(** C7, amended: propagate raises if and only if the intersection is valid,
    the direction is not parallel to the plane and the reflectivity at the
    ray's wavelength compares above 1 or below 0; what it raises is then
    ValueError.  A call whose intersection step yields NO_HIT never raises:
    it returns the empty list.  A NaN reflectivity, although not in [0,1],
    compares neither above 1 nor below 0 and is not refused: the call returns
    two children. *)
Theorem C7_raises_iff_above_one_or_below_zero (self : IdealSurface.t)
    (ray : Ray) (ni nr : double) (p : Vector3d)
    (Hhit : hit_point self ray = Return p) :
  (raises (IdealSurface.propagate self ray ni nr) <->
     is_no_hit p = false /\
     (c2 (_direction ray) =? 0) = false /\
     ((1 <? reflectivity_at self ray) = true \/
      (reflectivity_at self ray <? 0) = true)) /\
  (raises (IdealSurface.propagate self ray ni nr) ->
     IdealSurface.propagate self ray ni nr = Raise ValueError) /\
  (is_no_hit p = true ->
     IdealSurface.propagate self ray ni nr = Return []) /\
  (is_no_hit p = false ->
   (c2 (_direction ray) =? 0) = false ->
   is_nan (reflectivity_at self ray) = true ->
     exists t r, IdealSurface.propagate self ray ni nr = Return [t; r]).
Proof.
  destruct (is_no_hit p) eqn:Hnan.
  { rewrite (propagate_no_hit self ray ni nr p Hhit Hnan).
    split; [|split; [|split]].
    - split; [intros [e He]; discriminate | intros [H _]; discriminate].
    - intros [e He]. discriminate.
    - reflexivity.
    - discriminate. }
  destruct (c2 (_direction ray) =? 0) eqn:Hrz.
  { rewrite (propagate_parallel self ray ni nr Hrz).
    split; [|split; [|split]].
    - split; [intros [e He]; discriminate | intros (_ & H & _); discriminate].
    - intros [e He]. discriminate.
    - discriminate.
    - discriminate. }
  rewrite (propagate_on_hit self ray ni nr p Hhit Hnan Hrz). cbv zeta.
  generalize (reflectivity_at self ray). intros R.
  split; [|split; [|split]].
  - rewrite <- orb_true_iff.
    destruct ((1 <? R) || (R <? 0)).
    + split; [intros _; repeat split | intros _; exists ValueError; reflexivity].
    + split; [|intros (_ & _ & H); discriminate].
      intros [e He]. destruct (R =? 0); [discriminate|].
      destruct (R =? 1); discriminate.
  - destruct ((1 <? R) || (R <? 0)); [reflexivity|].
    intros [e He]. destruct (R =? 0); [discriminate|].
    destruct (R =? 1); discriminate.
  - discriminate.
  - intros _ _ HR. apply is_nan_eq in HR. subst R.
    eexists; eexists; reflexivity.
Qed.

Lemma C7_raises_iff_above_one_or_below_zero_witness :
  raises (IdealSurface.propagate (ideal_lens 2) ray_off_axis 1 1.5) /\
  IdealSurface.propagate (ideal_lens 2) ray_off_axis 1 1.5 = Raise ValueError.
Proof.
  pose proof (C7_raises_iff_above_one_or_below_zero (ideal_lens 2)
                ray_off_axis 1 1.5 (mkVector3d 5 0 0) eq_refl)
    as [Hiff [Hval _]].
  assert (Hr : raises (IdealSurface.propagate (ideal_lens 2)
                         ray_off_axis 1 1.5)).
  { apply (proj2 Hiff). split; [reflexivity|]. split; [reflexivity|].
    left. vm_compute. reflexivity. }
  split; [exact Hr | exact (Hval Hr)].
Defined.

(** C8: a ray whose direction has a zero z-component makes propagate return
    the empty list; and on no input whatever does the intersection
    computation or propagate reach a division whose divisor is zero (the
    checked divisions by dz and by abs(rz) never raise ZeroDivisionError). *)
Theorem C8_parallel_ray_and_guarded_divisions (self : IdealSurface.t)
    (ray : Ray) (ni nr : double)
    (Hdz : (c2 (_direction ray) =? 0) = true) :
  IdealSurface.propagate self ray ni nr = Return [] /\
  (forall (s : IdealSurface.t) (r : Ray) (a b : double),
     IdealSurface._calculate_intersection s r <> Raise ZeroDivisionError /\
     IdealSurface.propagate s r a b <> Raise ZeroDivisionError).
Proof.
  split.
  - apply propagate_parallel, Hdz.
  - intros s r a b. split.
    + destruct (calculate_intersection_returns s r) as [q ->]. discriminate.
    + apply propagate_never_divides_by_zero.
Qed.

Lemma C8_parallel_ray_and_guarded_divisions_witness :
  IdealSurface.propagate (ideal_lens 0.5) ray_parallel 1 1.5 = Return [].
Proof.
  apply (C8_parallel_ray_and_guarded_divisions (ideal_lens 0.5) ray_parallel
           1 1.5).
  vm_compute. reflexivity.
Defined.

(** ** OpticalStop *)

Section Stop.

Variable P : OpticalStop.t -> Ray -> Vector3d.

Lemma stop_intersection_described (self : OpticalStop.t) (r : Ray) :
  OpticalStop._calculate_intersection P self r
  = OpticalStop.intersection_described P self r.
Proof.
  unfold OpticalStop._calculate_intersection,
    OpticalStop.intersection_described, OpticalStop.blocked_by_aperture.
  destruct (OpticalStop.ap_shape self) as [ap|]; reflexivity.
Qed.

Lemma stop_intersection_open (self : OpticalStop.t) (r : Ray) :
  OpticalStop.blocked_by_aperture self (P self r) = false ->
  OpticalStop._calculate_intersection P self r = P self r.
Proof.
  intros H. rewrite stop_intersection_described.
  unfold OpticalStop.intersection_described. rewrite H. reflexivity.
Qed.

Lemma stop_intersection_blocked (self : OpticalStop.t) (r : Ray) :
  OpticalStop.blocked_by_aperture self (P self r) = true ->
  OpticalStop._calculate_intersection P self r = assign_nan_to_vector3d.
Proof.
  intros H. rewrite stop_intersection_described.
  unfold OpticalStop.intersection_described. rewrite H. reflexivity.
Qed.

End Stop.

(** C10: the stop's intersection is the inherited plane intersection, with
    the point replaced by the NaN sentinel exactly when an aperture shape is
    present and contains it; without an aperture shape it is the plane's
    result unchanged. *)
Theorem C10_stop_intersection_refines_plane
    (P : OpticalStop.t -> Ray -> Vector3d) (self : OpticalStop.t) (r : Ray) :
  OpticalStop._calculate_intersection P self r
    = OpticalStop.intersection_described P self r /\
  (OpticalStop.ap_shape self = None ->
     OpticalStop._calculate_intersection P self r = P self r) /\
  (forall ap, OpticalStop.ap_shape self = Some ap ->
     OpticalStop._calculate_intersection P self r
       = if hit_cy ap (P self r) then assign_nan_to_vector3d else P self r).
Proof.
  split; [apply stop_intersection_described|].
  unfold OpticalStop._calculate_intersection.
  split.
  - intros ->. reflexivity.
  - intros ap ->. reflexivity.
Qed.

(** The three cases of C10 on the sample stops. *)
Example full_stop_keeps_plane_point :
  OpticalStop._calculate_intersection Plane_calculate_intersection_z0
    full_stop ray_on_axis = mkVector3d 0 0 0.
Proof. vm_compute. reflexivity. Qed.

Example hole_maps_to_sentinel :
  OpticalStop._calculate_intersection Plane_calculate_intersection_z0
    stop_with_hole ray_on_axis = assign_nan_to_vector3d.
Proof. vm_compute. reflexivity. Qed.

Example rim_keeps_plane_point :
  OpticalStop._calculate_intersection Plane_calculate_intersection_z0
    stop_with_hole ray_off_axis = mkVector3d 5 0 0.
Proof. vm_compute. reflexivity. Qed.

(** C1, as stated, fails on the intensity: the ray [ray_off_axis] meets the
    sample stop at (5,0,0), inside the outer disc and outside the hole, and
    the single child propagate returns there has intensity 0, while the
    incident ray has intensity 1. *)
Lemma C1_stop_child_intensity_is_zero :
  let pt := Plane_calculate_intersection_z0 stop_with_hole ray_off_axis in
  hit_cy (OpticalStop.shape stop_with_hole) pt = true /\
  OpticalStop.blocked_by_aperture stop_with_hole pt = false /\
  is_no_hit pt = false /\
  exists child,
    OpticalStop.propagate Plane_calculate_intersection_z0
      stop_with_hole ray_off_axis 1 1 = [child] /\
    intensity child = 0 /\
    (intensity child =? intensity ray_off_axis) = false.
Proof.
  cbv zeta. repeat split; try (vm_compute; reflexivity).
  eexists. split; [reflexivity|]. split; vm_compute; reflexivity.
Qed.

(** C1, amended: for every incident ray whose plane intersection is not
    inside the aperture hole, propagate returns exactly one child ray,
    located at the intersection point, with the direction and the medium
    index of the incident ray, linked to it as its parent, and with
    intensity 0. *)
Theorem C1_stop_child (P : OpticalStop.t -> Ray -> Vector3d)
    (self : OpticalStop.t) (ri : Ray) (ni nr : double)
    (Hopen : OpticalStop.blocked_by_aperture self (P self ri) = false) :
  exists child,
    OpticalStop.propagate P self ri ni nr = [child] /\
    _origin child = P self ri /\
    _direction child = _direction ri /\
    n child = n ri /\
    parent child = Some ri /\
    intensity child = 0.
Proof.
  unfold OpticalStop.propagate.
  rewrite (stop_intersection_open P self ri Hopen).
  eexists. split; [reflexivity|]. repeat split.
Qed.

Lemma C1_stop_child_witness :
  exists child,
    OpticalStop.propagate Plane_calculate_intersection_z0
      stop_with_hole ray_off_axis 1 1.5 = [child] /\
    _origin child
      = Plane_calculate_intersection_z0 stop_with_hole ray_off_axis /\
    _direction child = _direction ray_off_axis /\
    n child = n ray_off_axis /\
    parent child = Some ray_off_axis /\
    intensity child = 0.
Proof.
  apply (C1_stop_child Plane_calculate_intersection_z0 stop_with_hole
           ray_off_axis 1 1.5).
  vm_compute. reflexivity.
Defined.




(** ** The ray tree *)

Lemma int_add_one (a : Z) :
  (INT_MIN <= a < INT_MAX)%Z -> int_add a 1 = (a + 1)%Z.
Proof.
  unfold int_add, INT_MIN, INT_MAX. intros Ha.
  rewrite Z.mod_small; lia.
Qed.

Lemma ideal_children_generation (self : IdealSurface.t) (ri : Ray)
    (ni nr : double) (rays : list Ray) :
  IdealSurface.propagate self ri ni nr = Return rays ->
  Forall (fun r => _parent_cnt r = int_add (_parent_cnt ri) 1) rays.
Proof.
  destruct (hit_point_returns self ri) as [p Hp].
  destruct (is_no_hit p) eqn:Hnan.
  { rewrite (propagate_no_hit self ri ni nr p Hp Hnan).
    intros [= <-]. constructor. }
  destruct (c2 (_direction ri) =? 0) eqn:Hrz.
  { rewrite (propagate_parallel self ri ni nr Hrz).
    intros [= <-]. constructor. }
  rewrite (propagate_on_hit self ri ni nr p Hp Hnan Hrz). cbv zeta.
  generalize (reflectivity_at self ri). intros R.
  destruct ((1 <? R) || (R <? 0)); [discriminate|].
  destruct (R =? 0); [|destruct (R =? 1)];
    intros [= <-]; repeat constructor.
Qed.

Section Tree.

Variable P : OpticalStop.t -> Ray -> Vector3d.

Lemma spawns_generation (ri r : Ray) :
  spawns P ri r -> _parent_cnt r = int_add (_parent_cnt ri) 1.
Proof.
  intros [self ri' ni nr rays r' Hprop Hin | self ri' ni nr r' Hin].
  - pose proof (ideal_children_generation self ri' ni nr rays Hprop) as Hall.
    rewrite Forall_forall in Hall. apply Hall, Hin.
  - destruct Hin as [<- | []]. reflexivity.
Qed.

Lemma spawns_unsaturated_generation (ri r : Ray) :
  spawns_unsaturated P ri r -> _parent_cnt r = (_parent_cnt ri + 1)%Z.
Proof.
  intros [Hcnt Hstep]. rewrite (spawns_generation ri r Hstep).
  apply int_add_one, Hcnt.
Qed.

Lemma descendant_generation (r d : Ray) :
  clos_refl_trans Ray (spawns_unsaturated P) r d ->
  (_parent_cnt r <= _parent_cnt d)%Z.
Proof.
  induction 1 as [a b Hab | a | a b c _ IHab _ IHbc].
  - apply spawns_unsaturated_generation in Hab. lia.
  - lia.
  - lia.
Qed.

End Tree.

(** C9, as stated, fails at the largest C int: the ray [ray_saturated] has
    generation 2147483647, and the child a stop returns for it, like the
    child an ideal surface returns for it, has generation -2147483648, which
    is not one greater but below the incident ray's. *)
Lemma C9_generation_wraps_at_int_max :
  _parent_cnt ray_saturated = 2147483647%Z /\
  In wrapped_child
     (OpticalStop.propagate Plane_calculate_intersection_z0 stop_with_hole
        ray_saturated 1 1.5) /\
  _parent_cnt wrapped_child = (-2147483648)%Z /\
  (_parent_cnt wrapped_child <? _parent_cnt ray_saturated + 1)%Z = true /\
  exists c,
    IdealSurface.propagate (ideal_lens 0) ray_saturated 1 1.5 = Return [c] /\
    _parent_cnt c = (-2147483648)%Z.
Proof.
  split; [reflexivity|]. split; [left; vm_compute; reflexivity|].
  split; [reflexivity|]. split; [reflexivity|].
  eexists. split; vm_compute; reflexivity.
Qed.

(** C9, amended: the generation counter is a C int.  Every child returned
    by propagate, of an ideal surface or of a stop, for an incident ray whose
    counter is below INT_MAX has the counter of the incident ray plus one;
    hence every ray reached from the child by further propagation steps from
    rays below INT_MAX has a generation above the incident ray's, and no
    chain of such steps leads from the child back to the incident ray: the
    ray tree has no cycle, whatever the scene. *)
Theorem C9_generation_increases_below_int_max
    (P : OpticalStop.t -> Ray -> Vector3d) (ri r : Ray)
    (Hstep : spawns P ri r)
    (Hcnt : (INT_MIN <= _parent_cnt ri < INT_MAX)%Z) :
  _parent_cnt r = (_parent_cnt ri + 1)%Z /\
  (forall d, clos_refl_trans Ray (spawns_unsaturated P) r d ->
             (_parent_cnt ri < _parent_cnt d)%Z) /\
  ~ clos_refl_trans Ray (spawns_unsaturated P) r ri.
Proof.
  pose proof (spawns_unsaturated_generation P ri r (conj Hcnt Hstep)) as Hgen.
  split; [exact Hgen|]. split.
  - intros d Hd. apply descendant_generation in Hd. lia.
  - intros Hback. apply descendant_generation in Hback. lia.
Qed.

Lemma C9_generation_increases_below_int_max_witness :
  _parent_cnt stopped_once = (_parent_cnt ray_off_axis + 1)%Z /\
  (forall d,
     clos_refl_trans Ray
       (spawns_unsaturated Plane_calculate_intersection_z0) stopped_once d ->
     (_parent_cnt ray_off_axis < _parent_cnt d)%Z) /\
  ~ clos_refl_trans Ray (spawns_unsaturated Plane_calculate_intersection_z0)
      stopped_once ray_off_axis.
Proof.
  apply (C9_generation_increases_below_int_max
           Plane_calculate_intersection_z0).
  - apply (spawns_stop _ stop_with_hole ray_off_axis 1 1.5).
    left. vm_compute. reflexivity.
  - vm_compute. split; [discriminate | reflexivity].
Defined.

(** ** SimpleDMD *)

Lemma normalize_z_axis : normalize (mkVector3d 0 0 1) = mkVector3d 0 0 1.
Proof. vm_compute. reflexivity. Qed.

Lemma in_states_cases (value : string) :
  SimpleDMD.in_states value = true ->
  value = "on"%string \/ value = "off"%string \/ value = "flat"%string.
Proof.
  unfold SimpleDMD.in_states. rewrite !orb_true_iff, !String.eqb_eq. tauto.
Qed.

Section Mirror.

Variables sin cos : double -> double.
Variables tilt on_dir off_dir : double.

Lemma set_state_fields (dmd dmd' : SimpleDMD.t) (value : string) :
  SimpleDMD.set_state dmd value = Return dmd' ->
  SimpleDMD.in_states value = true /\
  SimpleDMD.state dmd' = value /\
  SimpleDMD._normal_on dmd' = SimpleDMD._normal_on dmd /\
  SimpleDMD._normal_off dmd' = SimpleDMD._normal_off dmd /\
  SimpleDMD._normal_flat dmd' = SimpleDMD._normal_flat dmd.
Proof.
  unfold SimpleDMD.set_state.
  destruct (SimpleDMD.in_states value); simpl; [|discriminate].
  intros [= <-]. repeat split.
Qed.

Lemma built_invariant (dmd : SimpleDMD.t) :
  SimpleDMD.built sin cos tilt on_dir off_dir dmd ->
  mirror_invariant sin cos tilt on_dir off_dir dmd.
Proof.
  induction 1 as [st shape dmd Hinit | dmd value dmd' _ IH Hset].
  - unfold SimpleDMD.__init__ in Hinit.
    destruct (SimpleDMD.in_states st) eqn:Hst; simpl in Hinit;
      [|discriminate].
    injection Hinit as <-. unfold mirror_invariant. simpl.
    rewrite normalize_z_axis. repeat split. exact Hst.
  - destruct IH as (Hon & Hoff & Hflat & _).
    destruct (set_state_fields _ _ _ Hset) as (Hv & Hs & Hon' & Hoff' & Hflat').
    unfold mirror_invariant. rewrite Hon', Hoff', Hflat'.
    unfold SimpleDMD.state in Hs. rewrite Hs. repeat split; assumption.
Qed.

End Mirror.

(** C5: for a mirror built by the constructor and switched any number of
    times through the state setter, the normal returned for any intersection
    point is, in state "flat", exactly (0,0,1), in state "on" the normalised
    vector (sin tilt cos dir, sin tilt sin dir, cos tilt) of the ON direction
    angle, and in state "off" that of the OFF direction angle; the state is
    always one of the three; two such mirrors in the same state return the
    same normal at any two points; and the setter changes the state and none
    of the three stored vectors. *)
Theorem C5_normal_selected_by_state (sin cos : double -> double)
    (tilt on_dir off_dir : double) (dmd : SimpleDMD.t) (pt : Vector3d)
    (Hbuilt : SimpleDMD.built sin cos tilt on_dir off_dir dmd) :
  (SimpleDMD.state dmd = "flat"%string ->
     SimpleDMD._calculate_normal dmd pt = mkVector3d 0 0 1) /\
  (SimpleDMD.state dmd = "on"%string ->
     SimpleDMD._calculate_normal dmd pt
       = SimpleDMD.spherical_normal sin cos tilt on_dir) /\
  (SimpleDMD.state dmd = "off"%string ->
     SimpleDMD._calculate_normal dmd pt
       = SimpleDMD.spherical_normal sin cos tilt off_dir) /\
  (SimpleDMD.state dmd = "on"%string \/ SimpleDMD.state dmd = "off"%string
     \/ SimpleDMD.state dmd = "flat"%string) /\
  (forall (other : SimpleDMD.t) (q : Vector3d),
     SimpleDMD.built sin cos tilt on_dir off_dir other ->
     SimpleDMD.state other = SimpleDMD.state dmd ->
     SimpleDMD._calculate_normal other q = SimpleDMD._calculate_normal dmd pt) /\
  (forall (value : string) (dmd' : SimpleDMD.t),
     SimpleDMD.set_state dmd value = Return dmd' ->
     SimpleDMD.state dmd' = value /\
     SimpleDMD._normal_on dmd' = SimpleDMD._normal_on dmd /\
     SimpleDMD._normal_off dmd' = SimpleDMD._normal_off dmd /\
     SimpleDMD._normal_flat dmd' = SimpleDMD._normal_flat dmd).
Proof.
  destruct (built_invariant sin cos tilt on_dir off_dir dmd Hbuilt)
    as (Hon & Hoff & Hflat & Hst).
  unfold SimpleDMD.state, SimpleDMD._calculate_normal.
  repeat apply conj.
  - intros ->. simpl. exact Hflat.
  - intros ->. simpl. exact Hon.
  - intros ->. simpl. exact Hoff.
  - apply in_states_cases, Hst.
  - intros other q Hother ->.
    destruct (built_invariant sin cos tilt on_dir off_dir other Hother)
      as (Hon' & Hoff' & Hflat' & _).
    rewrite Hon, Hoff, Hflat, Hon', Hoff', Hflat'. reflexivity.
  - intros value dmd' Hset.
    destruct (set_state_fields _ _ _ Hset) as (_ & Hs & Hrest).
    split; [exact Hs | exact Hrest].
Qed.

Lemma sample_dmd_built :
  SimpleDMD.built sin_poly cos_poly 0.25 0 3 (sample_dmd "on").
Proof.
  apply (SimpleDMD.built_set _ _ _ _ _ (sample_dmd "flat") "on").
  - apply (SimpleDMD.built_init _ _ _ _ _ "flat" None). vm_compute. reflexivity.
  - vm_compute. reflexivity.
Defined.

Lemma C5_normal_selected_by_state_witness :
  SimpleDMD._calculate_normal (sample_dmd "on") (mkVector3d 1 2 0)
  = SimpleDMD.spherical_normal sin_poly cos_poly 0.25 0.
Proof.
  apply (proj1 (proj2 (C5_normal_selected_by_state sin_poly cos_poly 0.25 0 3
                         (sample_dmd "on") (mkVector3d 1 2 0)
                         sample_dmd_built))).
  reflexivity.
Defined.

(** * Further properties *)

(** ** Arithmetic of doubles on special values *)

Lemma add_nan_l (a : double) : nan + a = nan.
Proof. apply Prim2SF_inj. rewrite add_spec. reflexivity. Qed.

Lemma add_nan_r (a : double) : a + nan = nan.
Proof.
  apply Prim2SF_inj. rewrite add_spec.
  change (Prim2SF nan) with S754_nan.
  destruct (Prim2SF a) as [s|s| |s m e]; reflexivity.
Qed.

Lemma mul_nan_l (a : double) : nan * a = nan.
Proof. apply Prim2SF_inj. rewrite mul_spec. reflexivity. Qed.

Lemma div_nan_l (a : double) : nan / a = nan.
Proof. apply Prim2SF_inj. rewrite div_spec. reflexivity. Qed.

Lemma eqb_zero_iff (a : double) :
  (a =? 0) = true <-> exists s, Prim2SF a = S754_zero s.
Proof.
  split; [apply eqb_zero_Prim2SF|].
  intros [s Hs]. rewrite eqb_spec, Hs. reflexivity.
Qed.

Lemma isfinite_cases (a : double) :
  isfinite a = true ->
  (exists s, Prim2SF a = S754_zero s) \/
  (exists s m e, Prim2SF a = S754_finite s m e).
Proof.
  unfold isfinite. destruct (Prim2SF a) as [s|s| |s m e]; try discriminate.
  - intros _. left. exists s. reflexivity.
  - intros _. right. exists s, m, e. reflexivity.
Qed.

(** Zero times a finite double is a zero. *)
Lemma mul_zero_finite (a b : double) :
  (a =? 0) = true -> isfinite b = true -> (a * b =? 0) = true.
Proof.
  intros Ha Hb. apply eqb_zero_Prim2SF in Ha. destruct Ha as [sa Ha].
  apply eqb_zero_iff. rewrite mul_spec, Ha.
  destruct (isfinite_cases b Hb) as [[sb ->] | (sb & m & e & ->)];
    eexists; reflexivity.
Qed.

(** A zero divided by a finite double other than zero is a zero. *)
Lemma div_zero_finite (a b : double) :
  (a =? 0) = true -> isfinite b = true -> (b =? 0) = false ->
  (a / b =? 0) = true.
Proof.
  intros Ha Hb Hnz. apply eqb_zero_Prim2SF in Ha. destruct Ha as [sa Ha].
  apply eqb_zero_iff. rewrite div_spec, Ha.
  destruct (isfinite_cases b Hb) as [[sb Hb0] | (sb & m & e & ->)].
  - assert (Hz : (b =? 0) = true) by (apply eqb_zero_iff; eauto).
    rewrite Hz in Hnz. discriminate.
  - eexists; reflexivity.
Qed.

Lemma opp_zero (a : double) : (a =? 0) = true -> (- a =? 0) = true.
Proof.
  intros Ha. apply eqb_zero_Prim2SF in Ha. destruct Ha as [sa Ha].
  apply eqb_zero_iff. rewrite opp_spec, Ha. eexists; reflexivity.
Qed.

Lemma SFeqb_refl (x : spec_float) : x <> S754_nan -> SFeqb x x = true.
Proof.
  unfold SFeqb, SFcompare.
  destruct x as [s|s| |s m e]; intros Hx;
    try (destruct s; reflexivity); try congruence.
  rewrite Z.compare_refl, Pos.compare_cont_refl. destruct s; reflexivity.
Qed.

(** Adding a zero to a double that is not NaN gives a double that compares
    equal to it. *)
Lemma add_zero_r (a z : double) :
  is_nan a = false -> (z =? 0) = true -> (a + z =? a) = true.
Proof.
  intros Ha Hz. apply eqb_zero_Prim2SF in Hz. destruct Hz as [sz Hz].
  assert (Hnan : Prim2SF a <> S754_nan).
  { intros E. unfold is_nan in Ha. rewrite eqb_spec, E in Ha. discriminate. }
  rewrite eqb_spec, add_spec, Hz.
  destruct (Prim2SF a) as [s|s| |s m e] eqn:E; try congruence.
  - destruct s, sz; reflexivity.
  - destruct s; reflexivity.
  - apply SFeqb_refl. discriminate.
Qed.

(** ** IdealSurface: every outcome of propagate *)

(** X1: whatever the surface, the ray and the two indices, a call of
    [IdealSurface.propagate] ends in exactly one of four ways: the empty list
    (the intersection is NO_HIT or the direction is parallel to the plane);
    ValueError (a hit, and the reflectivity above 1 or below 0); one child (a
    hit, the reflectivity in range and equal to 0 or to 1); two children (a
    hit, the reflectivity passing the range test and equal to neither).  It
    never returns more than two rays and raises nothing but ValueError. *)
Theorem X1_propagate_outcomes (self : IdealSurface.t) (ray : Ray)
    (ni nr : double) :
  exists p,
    hit_point self ray = Return p /\
    let R := reflectivity_at self ray in
    let hit := is_no_hit p = false /\ (c2 (_direction ray) =? 0) = false in
    (IdealSurface.propagate self ray ni nr = Return [] /\
     (is_no_hit p = true \/ (c2 (_direction ray) =? 0) = true)) \/
    (IdealSurface.propagate self ray ni nr = Raise ValueError /\ hit /\
     (1 <? R) || (R <? 0) = true) \/
    ((exists c, IdealSurface.propagate self ray ni nr = Return [c]) /\ hit /\
     (1 <? R) || (R <? 0) = false /\ (R =? 0) || (R =? 1) = true) \/
    ((exists t r, IdealSurface.propagate self ray ni nr = Return [t; r]) /\
     hit /\
     (1 <? R) || (R <? 0) = false /\ (R =? 0) || (R =? 1) = false).
Proof.
  destruct (hit_point_returns self ray) as [p Hp].
  exists p. split; [exact Hp|]. cbv zeta.
  destruct (is_no_hit p) eqn:Hnan.
  { left. split; [apply (propagate_no_hit self ray ni nr p Hp Hnan) | left; reflexivity]. }
  destruct (c2 (_direction ray) =? 0) eqn:Hrz.
  { left. split; [apply (propagate_parallel self ray ni nr Hrz) | right; reflexivity]. }
  right.
  rewrite (propagate_on_hit self ray ni nr p Hp Hnan Hrz). cbv zeta.
  generalize (reflectivity_at self ray). intros R.
  destruct ((1 <? R) || (R <? 0)).
  { left. repeat split. }
  right.
  destruct (R =? 0).
  { left. repeat split. eexists; reflexivity. }
  destruct (R =? 1).
  { left. repeat split. eexists; reflexivity. }
  right. repeat split. eexists; eexists; reflexivity.
Qed.

(** What every child of an ideal surface has in common. *)
Lemma ideal_children_fields (self : IdealSurface.t) (ray : Ray)
    (ni nr : double) (rays : list Ray) (p : Vector3d) :
  IdealSurface.propagate self ray ni nr = Return rays ->
  hit_point self ray = Return p ->
  Forall (fun c =>
            _origin c = p /\ is_no_hit (_origin c) = false /\
            wavelength c = wavelength ray /\ label c = label ray /\
            draw_color c = draw_color ray /\ parent c = None /\
            pop c = 0 /\ orig_surf c = IdealSurface.id self /\
            order c = 0%Z /\ (n c = ni \/ n c = nr)) rays.
Proof.
  intros Hcall Hp. revert Hcall.
  destruct (is_no_hit p) eqn:Hnan.
  { rewrite (propagate_no_hit self ray ni nr p Hp Hnan).
    intros [= <-]. constructor. }
  destruct (c2 (_direction ray) =? 0) eqn:Hrz.
  { rewrite (propagate_parallel self ray ni nr Hrz).
    intros [= <-]. constructor. }
  rewrite (propagate_on_hit self ray ni nr p Hp Hnan Hrz). cbv zeta.
  generalize (reflectivity_at self ray). intros R.
  destruct ((1 <? R) || (R <? 0)); [discriminate|].
  destruct (R =? 0); [|destruct (R =? 1)];
    intros [= <-];
    repeat (apply Forall_cons || apply Forall_nil);
    unfold ideal_child; simpl; repeat split; auto.
Qed.

(** X2: every child ray [IdealSurface.propagate] returns starts at the
    intersection point, none of whose coordinates is NaN, keeps the
    wavelength, label and draw colour of the incident ray, carries no parent
    reference, an optical path of 0, the id of the surface as its origin
    surface and order 0, and has one of the two indices passed to the call as
    its medium index. *)
Theorem X2_ideal_children_fields (self : IdealSurface.t) (ray : Ray)
    (ni nr : double) (rays : list Ray) (p : Vector3d)
    (Hcall : IdealSurface.propagate self ray ni nr = Return rays)
    (Hhit : hit_point self ray = Return p) :
  Forall (fun c =>
            _origin c = p /\ is_no_hit (_origin c) = false /\
            wavelength c = wavelength ray /\ label c = label ray /\
            draw_color c = draw_color ray /\ parent c = None /\
            pop c = 0 /\ orig_surf c = IdealSurface.id self /\
            order c = 0%Z /\ (n c = ni \/ n c = nr)) rays.
Proof. exact (ideal_children_fields self ray ni nr rays p Hcall Hhit). Qed.

Lemma X2_ideal_children_fields_witness :
  Forall (fun c =>
            _origin c = mkVector3d 5 0 0 /\ is_no_hit (_origin c) = false /\
            wavelength c = wavelength ray_off_axis /\
            label c = label ray_off_axis /\
            draw_color c = draw_color ray_off_axis /\ parent c = None /\
            pop c = 0 /\ orig_surf c = IdealSurface.id (ideal_lens 0.5) /\
            order c = 0%Z /\ (n c = 1 \/ n c = 1.5))
    [ideal_child (ideal_lens 0.5) ray_off_axis (mkVector3d 5 0 0)
       (transmitted_direction (ideal_lens 0.5) ray_off_axis (mkVector3d 5 0 0))
       (1 * (1 - 0.5)) 1.5;
     ideal_child (ideal_lens 0.5) ray_off_axis (mkVector3d 5 0 0)
       (reflected_direction (ideal_lens 0.5) ray_off_axis (mkVector3d 5 0 0))
       (1 * 0.5) 1].
Proof.
  apply (X2_ideal_children_fields (ideal_lens 0.5) ray_off_axis 1 1.5);
    vm_compute; reflexivity.
Defined.

(** X3: when the reflectivity equals 0 or equals 1, every child
    [IdealSurface.propagate] returns has exactly the intensity of the
    incident ray: pure transmission and pure reflection neither lose nor
    create intensity. *)
Theorem X3_pure_modes_keep_intensity (self : IdealSurface.t) (ray : Ray)
    (ni nr : double) (rays : list Ray)
    (Hcall : IdealSurface.propagate self ray ni nr = Return rays)
    (Hpure : (reflectivity_at self ray =? 0)
             || (reflectivity_at self ray =? 1) = true) :
  Forall (fun c => intensity c = intensity ray) rays.
Proof.
  destruct (hit_point_returns self ray) as [p Hp]. revert Hcall.
  destruct (is_no_hit p) eqn:Hnan.
  { rewrite (propagate_no_hit self ray ni nr p Hp Hnan).
    intros [= <-]. constructor. }
  destruct (c2 (_direction ray) =? 0) eqn:Hrz.
  { rewrite (propagate_parallel self ray ni nr Hrz).
    intros [= <-]. constructor. }
  rewrite (propagate_on_hit self ray ni nr p Hp Hnan Hrz). cbv zeta.
  revert Hpure. generalize (reflectivity_at self ray). intros R Hpure.
  destruct ((1 <? R) || (R <? 0)); [discriminate|].
  destruct (R =? 0); [|destruct (R =? 1); [|discriminate]];
    intros [= <-]; repeat constructor.
Qed.

Lemma X3_pure_modes_keep_intensity_witness :
  Forall (fun c => intensity c = intensity ray_bright)
    [ideal_child (ideal_lens 1) ray_bright (mkVector3d 5 0 0)
       (reflected_direction (ideal_lens 1) ray_bright (mkVector3d 5 0 0))
       3 1].
Proof.
  apply (X3_pure_modes_keep_intensity (ideal_lens 1) ray_bright 1 1.5);
    vm_compute; reflexivity.
Defined.

(** ** IdealSurface: rays with special origins *)

Lemma point_at_nan_origin (r : Ray) (u : double) :
  is_no_hit (_origin r) = true -> is_no_hit (point_at r u) = true.
Proof.
  unfold is_no_hit, isnan, point_at. simpl.
  rewrite !orb_true_iff. intros [[H | H] | H];
    apply is_nan_eq in H; rewrite H, add_nan_l; auto.
Qed.

Lemma propagate_nan_origin (self : IdealSurface.t) (ray : Ray)
    (ni nr : double) :
  is_no_hit (_origin ray) = true ->
  IdealSurface.propagate self ray ni nr = Return [].
Proof.
  intros Hnan.
  destruct (hit_point_returns self ray) as [p Hp].
  apply (propagate_no_hit self ray ni nr p Hp).
  revert Hp. unfold hit_point, intersection_cy.
  rewrite calculate_intersection_eq.
  destruct (c2 (_direction ray) =? 0); simpl;
    destruct (_ <? _); try destruct (hit_cy _ _); intros [= <-];
    try apply is_no_hit_sentinel;
    apply point_at_nan_origin, Hnan.
Qed.

(** X4: an ideal surface returns no child for a ray whose origin has a NaN
    coordinate.  In particular the single child an optical stop returns for a
    ray that lands inside its aperture hole, which is located at the NaN
    sentinel, produces no further ray at any ideal surface. *)
Theorem X4_sentinel_ray_ends_at_ideal_surface (self : IdealSurface.t)
    (ray : Ray) (ni nr : double)
    (Hnan : is_no_hit (_origin ray) = true) :
  IdealSurface.propagate self ray ni nr = Return [] /\
  (forall (P : OpticalStop.t -> Ray -> Vector3d) (stop : OpticalStop.t)
          (ri child : Ray) (a b : double),
     OpticalStop.blocked_by_aperture stop (P stop ri) = true ->
     In child (OpticalStop.propagate P stop ri a b) ->
     IdealSurface.propagate self child ni nr = Return []).
Proof.
  split; [apply propagate_nan_origin, Hnan|].
  intros P stop ri child a b Hin [<- | []].
  apply propagate_nan_origin. simpl.
  rewrite (stop_intersection_blocked P stop ri Hin). reflexivity.
Qed.

Lemma X4_sentinel_ray_ends_at_ideal_surface_witness :
  IdealSurface.propagate (ideal_lens 0.5)
    (source_ray assign_nan_to_vector3d (mkVector3d 0 0 1) 1) 1 1.5
  = Return [].
Proof.
  apply (X4_sentinel_ray_ends_at_ideal_surface (ideal_lens 0.5)
           (source_ray assign_nan_to_vector3d (mkVector3d 0 0 1) 1) 1 1.5).
  vm_compute. reflexivity.
Defined.

Lemma zero_not_nan (a : double) : (a =? 0) = true -> is_nan a = false.
Proof.
  intros Ha. apply eqb_zero_Prim2SF in Ha. destruct Ha as [s Ha].
  unfold is_nan. rewrite eqb_spec, Ha. reflexivity.
Qed.

(** X5: a ray that starts on the plane z = 0 and is not parallel to it is
    given its own origin as intersection point.  Precisely: when the origin's
    z compares equal to zero, the direction is finite with a nonzero
    z-component and the origin's x and y are not NaN, the intersection
    parameter compares equal to zero and each coordinate of the point
    [_calculate_intersection] returns compares equal to the origin's. *)
Theorem X5_ray_on_the_plane_hits_at_its_origin (self : IdealSurface.t)
    (r : Ray)
    (Hz : (c2 (_origin r) =? 0) = true)
    (Hdz : (c2 (_direction r) =? 0) = false)
    (Hfx : isfinite (c0 (_direction r)) = true)
    (Hfy : isfinite (c1 (_direction r)) = true)
    (Hfz : isfinite (c2 (_direction r)) = true)
    (Hx : is_nan (c0 (_origin r)) = false)
    (Hy : is_nan (c1 (_origin r)) = false) :
  (intersection_parameter r =? 0) = true /\
  exists p,
    IdealSurface._calculate_intersection self r = Return p /\
    coords_equal p (_origin r) = true.
Proof.
  assert (Hu : (intersection_parameter r =? 0) = true).
  { unfold intersection_parameter.
    apply div_zero_finite; [apply opp_zero, Hz | exact Hfz | exact Hdz]. }
  split; [exact Hu|].
  rewrite calculate_intersection_eq, Hdz.
  eexists. split; [reflexivity|].
  unfold coords_equal, point_at. simpl.
  rewrite (add_zero_r _ _ Hx (mul_zero_finite _ _ Hu Hfx)).
  rewrite (add_zero_r _ _ Hy (mul_zero_finite _ _ Hu Hfy)).
  rewrite (add_zero_r _ _ (zero_not_nan _ Hz) (mul_zero_finite _ _ Hu Hfz)).
  reflexivity.
Qed.

Lemma X5_ray_on_the_plane_hits_at_its_origin_witness :
  (intersection_parameter
     (source_ray (mkVector3d 5 0 0) (mkVector3d 0 0 1) 1) =? 0) = true /\
  exists p,
    IdealSurface._calculate_intersection (ideal_lens 0)
      (source_ray (mkVector3d 5 0 0) (mkVector3d 0 0 1) 1) = Return p /\
    coords_equal p (mkVector3d 5 0 0) = true.
Proof.
  apply (X5_ray_on_the_plane_hits_at_its_origin (ideal_lens 0)
           (source_ray (mkVector3d 5 0 0) (mkVector3d 0 0 1) 1));
    vm_compute; reflexivity.
Defined.

(** ** SimpleDMD: zero tilt *)

Lemma zero_isfinite (a : double) : (a =? 0) = true -> isfinite a = true.
Proof.
  intros Ha. apply eqb_zero_Prim2SF in Ha. destruct Ha as [s Ha].
  unfold isfinite. rewrite Ha. reflexivity.
Qed.

Lemma add_zero_zero (a b : double) :
  (a =? 0) = true -> (b =? 0) = true -> (a + b =? 0) = true.
Proof.
  intros Ha Hb.
  apply eqb_zero_Prim2SF in Ha. destruct Ha as [sa Ha].
  apply eqb_zero_Prim2SF in Hb. destruct Hb as [sb Hb].
  apply eqb_zero_iff. rewrite add_spec, Ha, Hb.
  destruct sa, sb; eexists; reflexivity.
Qed.

Lemma add_zero_one (a : double) : (a =? 0) = true -> a + 1 = 1.
Proof.
  intros Ha. apply eqb_zero_Prim2SF in Ha. destruct Ha as [sa Ha].
  apply Prim2SF_inj. rewrite add_spec, Ha. reflexivity.
Qed.

Lemma div_zero_one (a : double) : (a =? 0) = true -> (a / 1 =? 0) = true.
Proof.
  intros Ha. apply div_zero_finite; [exact Ha | reflexivity | reflexivity].
Qed.

(** The spherical formula at a tilt whose sine is zero and whose cosine is
    one. *)
Lemma spherical_normal_zero_tilt (sin cos : double -> double)
    (tilt direction : double) :
  (sin tilt =? 0) = true ->
  (cos tilt =? 1) = true ->
  isfinite (cos direction) = true ->
  isfinite (sin direction) = true ->
  coords_equal (SimpleDMD.spherical_normal sin cos tilt direction)
               (mkVector3d 0 0 1) = true.
Proof.
  intros Hs Hc Hfc Hfs.
  apply eqb_one_eq in Hc.
  pose proof (mul_zero_finite _ _ Hs Hfc) as Hx.
  pose proof (mul_zero_finite _ _ Hs Hfs) as Hy.
  unfold SimpleDMD.spherical_normal. rewrite Hc.
  revert Hx Hy.
  generalize (sin tilt * cos direction). intros x.
  generalize (sin tilt * sin direction). intros y. intros Hx Hy.
  assert (Hsq : squaredNorm (mkVector3d x y 1) = 1).
  { unfold squaredNorm. simpl c0. simpl c1. simpl c2.
    change (1 * 1) with 1.
    apply add_zero_one, add_zero_zero;
      apply mul_zero_finite; auto using zero_isfinite. }
  unfold normalize. rewrite Hsq.
  change (0 <? 1) with true. change (sqrt 1) with 1. cbv iota.
  unfold coords_equal. simpl c0. simpl c1. simpl c2.
  rewrite (div_zero_one _ Hx), (div_zero_one _ Hy). reflexivity.
Qed.

(** X6: with a tilt angle whose sine is 0 and whose cosine is 1, as for a
    tilt of zero, and direction angles whose sine and cosine are finite, the
    normal of a mirror built by the constructor is perpendicular to the
    surface in every state and at every point: its coordinates compare equal
    to those of (0,0,1). *)
Theorem X6_zero_tilt_normal_is_perpendicular (sin cos : double -> double)
    (tilt on_dir off_dir : double) (dmd : SimpleDMD.t) (pt : Vector3d)
    (Hbuilt : SimpleDMD.built sin cos tilt on_dir off_dir dmd)
    (Hsin : (sin tilt =? 0) = true)
    (Hcos : (cos tilt =? 1) = true)
    (Hon : isfinite (cos on_dir) && isfinite (sin on_dir) = true)
    (Hoff : isfinite (cos off_dir) && isfinite (sin off_dir) = true) :
  coords_equal (SimpleDMD._calculate_normal dmd pt) (mkVector3d 0 0 1) = true.
Proof.
  apply andb_true_iff in Hon. destruct Hon as [Hon1 Hon2].
  apply andb_true_iff in Hoff. destruct Hoff as [Hoff1 Hoff2].
  destruct (built_invariant sin cos tilt on_dir off_dir dmd Hbuilt)
    as (Eon & Eoff & Eflat & _).
  unfold SimpleDMD._calculate_normal.
  destruct (SimpleDMD._state dmd =? "on")%string.
  - rewrite Eon. apply spherical_normal_zero_tilt; assumption.
  - destruct (SimpleDMD._state dmd =? "off")%string.
    + rewrite Eoff. apply spherical_normal_zero_tilt; assumption.
    + rewrite Eflat. reflexivity.
Qed.

Lemma untilted_dmd_built :
  SimpleDMD.built sin_poly cos_poly 0 0 3 (untilted_dmd "off").
Proof.
  apply (SimpleDMD.built_init _ _ _ _ _ "off" None). vm_compute. reflexivity.
Defined.

Lemma X6_zero_tilt_normal_is_perpendicular_witness :
  coords_equal (SimpleDMD._calculate_normal (untilted_dmd "off")
                  (mkVector3d 1 2 0))
               (mkVector3d 0 0 1) = true.
Proof.
  apply (X6_zero_tilt_normal_is_perpendicular sin_poly cos_poly 0 0 3
           (untilted_dmd "off") (mkVector3d 1 2 0) untilted_dmd_built);
    vm_compute; reflexivity.
Defined.

(** ** SimpleDMD: constructor and state property *)

Lemma in_states_iff (value : string) :
  SimpleDMD.in_states value = true <->
  value = "on"%string \/ value = "off"%string \/ value = "flat"%string.
Proof.
  unfold SimpleDMD.in_states. rewrite !orb_true_iff, !String.eqb_eq. tauto.
Qed.

(** X7: the constructor accepts exactly the three state labels.  Given
    "on", "off" or "flat" it returns a mirror in that state, built with
    reflectivity 1 and holding the three angles it was given; given any
    other string it raises ValueError. *)
Theorem X7_constructor_validates_state (sin cos : double -> double)
    (tilt on_dir off_dir : double) (st : string) (shape : option Shape) :
  ((st = "on"%string \/ st = "off"%string \/ st = "flat"%string) ->
     exists dmd,
       SimpleDMD.__init__ sin cos tilt on_dir off_dir st shape = Return dmd /\
       SimpleDMD.state dmd = st /\
       SimpleDMD.reflectivity dmd = 1 /\
       SimpleDMD._tilt_angle dmd = tilt /\
       SimpleDMD._on_direction_angle dmd = on_dir /\
       SimpleDMD._off_direction_angle dmd = off_dir) /\
  (~ (st = "on"%string \/ st = "off"%string \/ st = "flat"%string) ->
     SimpleDMD.__init__ sin cos tilt on_dir off_dir st shape
       = Raise ValueError).
Proof.
  unfold SimpleDMD.__init__. split.
  - intros Hst. apply in_states_iff in Hst. rewrite Hst. simpl.
    eexists. split; [reflexivity|]. repeat split.
  - intros Hst. destruct (SimpleDMD.in_states st) eqn:E; [|reflexivity].
    apply in_states_iff in E. contradiction.
Qed.

Lemma set_state_accepts (dmd : SimpleDMD.t) (value : string) :
  SimpleDMD.in_states value = true ->
  SimpleDMD.set_state dmd value =
  Return (SimpleDMD.mk (SimpleDMD.shape dmd) (SimpleDMD.reflectivity dmd)
            (SimpleDMD._normal_on dmd) (SimpleDMD._normal_off dmd)
            (SimpleDMD._normal_flat dmd) value (SimpleDMD._tilt_angle dmd)
            (SimpleDMD._on_direction_angle dmd)
            (SimpleDMD._off_direction_angle dmd)).
Proof. unfold SimpleDMD.set_state. intros ->. reflexivity. Qed.

Lemma set_state_refuses (dmd : SimpleDMD.t) (value : string) :
  SimpleDMD.in_states value = false ->
  SimpleDMD.set_state dmd value = Raise ValueError.
Proof. unfold SimpleDMD.set_state. intros ->. reflexivity. Qed.

Lemma set_state_current (dmd : SimpleDMD.t) :
  SimpleDMD.in_states (SimpleDMD.state dmd) = true ->
  SimpleDMD.set_state dmd (SimpleDMD.state dmd) = Return dmd.
Proof.
  intros H. rewrite (set_state_accepts dmd _ H). destruct dmd. reflexivity.
Qed.

Lemma set_state_overwrites (dmd d1 : SimpleDMD.t) (v1 v2 : string) :
  SimpleDMD.set_state dmd v1 = Return d1 ->
  SimpleDMD.set_state d1 v2 = SimpleDMD.set_state dmd v2.
Proof.
  unfold SimpleDMD.set_state at 1.
  destruct (SimpleDMD.in_states v1); simpl; [|discriminate].
  intros [= <-]. reflexivity.
Qed.

(** X8: on a mirror built by the constructor, the state setter accepts
    exactly the three labels and raises ValueError on any other string; an
    accepted value becomes the state read back and leaves a mirror that is
    again one the constructor and setter can produce; writing back the state
    just read changes nothing; and of two successive assignments only the
    second counts. *)
Theorem X8_state_setter (sin cos : double -> double)
    (tilt on_dir off_dir : double) (dmd : SimpleDMD.t) (value : string)
    (Hbuilt : SimpleDMD.built sin cos tilt on_dir off_dir dmd) :
  ((value = "on"%string \/ value = "off"%string \/ value = "flat"%string) ->
     exists dmd',
       SimpleDMD.set_state dmd value = Return dmd' /\
       SimpleDMD.state dmd' = value /\
       SimpleDMD.built sin cos tilt on_dir off_dir dmd') /\
  (~ (value = "on"%string \/ value = "off"%string \/ value = "flat"%string) ->
     SimpleDMD.set_state dmd value = Raise ValueError) /\
  SimpleDMD.set_state dmd (SimpleDMD.state dmd) = Return dmd /\
  (forall (d1 : SimpleDMD.t) (later : string),
     SimpleDMD.set_state dmd value = Return d1 ->
     SimpleDMD.set_state d1 later = SimpleDMD.set_state dmd later).
Proof.
  repeat apply conj.
  - intros Hv. apply in_states_iff in Hv.
    eexists. split; [apply (set_state_accepts dmd value Hv)|].
    split; [reflexivity|].
    apply (SimpleDMD.built_set _ _ _ _ _ dmd value); [exact Hbuilt|].
    apply (set_state_accepts dmd value Hv).
  - intros Hv. apply set_state_refuses.
    destruct (SimpleDMD.in_states value) eqn:E; [|reflexivity].
    apply in_states_iff in E. contradiction.
  - apply set_state_current.
    apply (built_invariant sin cos tilt on_dir off_dir dmd Hbuilt).
  - intros d1 later H1. apply (set_state_overwrites dmd d1 value later H1).
Qed.

Lemma X8_state_setter_witness :
  SimpleDMD.set_state (sample_dmd "on") "on" = Return (sample_dmd "on") /\
  SimpleDMD.set_state (sample_dmd "on") "tilted" = Raise ValueError.
Proof.
  pose proof (X8_state_setter sin_poly cos_poly 0.25 0 3 (sample_dmd "on")
                "tilted" sample_dmd_built) as (_ & Hbad & Hsame & _).
  split; [exact Hsame|].
  apply Hbad. intros [H | [H | H]]; discriminate H.
Defined.

(** ** SimpleDMD: runs of state assignments *)

Lemma assign_state_accepted (dmd : SimpleDMD.t) (value : string) :
  SimpleDMD.in_states value = true ->
  assign_state dmd value =
  SimpleDMD.mk (SimpleDMD.shape dmd) (SimpleDMD.reflectivity dmd)
    (SimpleDMD._normal_on dmd) (SimpleDMD._normal_off dmd)
    (SimpleDMD._normal_flat dmd) value (SimpleDMD._tilt_angle dmd)
    (SimpleDMD._on_direction_angle dmd) (SimpleDMD._off_direction_angle dmd).
Proof.
  intros H. unfold assign_state. rewrite (set_state_accepts dmd value H).
  reflexivity.
Qed.

Lemma assign_state_refused (dmd : SimpleDMD.t) (value : string) :
  SimpleDMD.in_states value = false -> assign_state dmd value = dmd.
Proof.
  intros H. unfold assign_state. rewrite (set_state_refuses dmd value H).
  reflexivity.
Qed.

Lemma assign_state_current (dmd : SimpleDMD.t) :
  assign_state dmd (SimpleDMD.state dmd) = dmd.
Proof.
  destruct (SimpleDMD.in_states (SimpleDMD.state dmd)) eqn:E.
  - unfold assign_state. rewrite (set_state_current dmd E). reflexivity.
  - apply assign_state_refused, E.
Qed.

Lemma state_assign_state (dmd : SimpleDMD.t) (value : string) :
  SimpleDMD.state (assign_state dmd value)
  = if SimpleDMD.in_states value then value else SimpleDMD.state dmd.
Proof.
  destruct (SimpleDMD.in_states value) eqn:E.
  - rewrite (assign_state_accepted dmd value E). reflexivity.
  - rewrite (assign_state_refused dmd value E). reflexivity.
Qed.

Lemma assign_state_overwrites (dmd : SimpleDMD.t) (v w : string) :
  SimpleDMD.in_states w = true ->
  assign_state (assign_state dmd v) w = assign_state dmd w.
Proof.
  intros Hw. destruct (SimpleDMD.in_states v) eqn:Hv.
  - rewrite (assign_state_accepted dmd v Hv).
    rewrite !(assign_state_accepted _ w Hw). reflexivity.
  - rewrite (assign_state_refused dmd v Hv). reflexivity.
Qed.

Lemma last_accepted_valid (s : string) (values : list string) :
  SimpleDMD.in_states s = true ->
  SimpleDMD.in_states (last_accepted s values) = true.
Proof.
  unfold last_accepted. revert s.
  induction values as [|v vs IH]; intros s Hs; simpl; [exact Hs|].
  apply IH. destruct (SimpleDMD.in_states v) eqn:Hv; assumption.
Qed.

Lemma assign_states_cons (dmd : SimpleDMD.t) (v : string)
    (vs : list string) :
  assign_states dmd (v :: vs) = assign_states (assign_state dmd v) vs.
Proof. reflexivity. Qed.

Lemma last_accepted_cons (s v : string) (vs : list string) :
  last_accepted s (v :: vs)
  = last_accepted (if SimpleDMD.in_states v then v else s) vs.
Proof. reflexivity. Qed.

Lemma assign_states_collapse (dmd : SimpleDMD.t) (values : list string) :
  assign_states dmd values
  = assign_state dmd (last_accepted (SimpleDMD.state dmd) values).
Proof.
  revert dmd. induction values as [|v vs IH]; intros dmd.
  - simpl. symmetry. apply assign_state_current.
  - rewrite assign_states_cons, last_accepted_cons, IH, state_assign_state.
    destruct (SimpleDMD.in_states v) eqn:Hv.
    + apply assign_state_overwrites, last_accepted_valid, Hv.
    + rewrite (assign_state_refused dmd v Hv). reflexivity.
Qed.

Lemma state_assign_states (dmd : SimpleDMD.t) (values : list string) :
  SimpleDMD.state (assign_states dmd values)
  = last_accepted (SimpleDMD.state dmd) values.
Proof.
  revert dmd. induction values as [|v vs IH]; intros dmd; [reflexivity|].
  rewrite assign_states_cons, last_accepted_cons, IH, state_assign_state.
  reflexivity.
Qed.

(** X9: any run of assignments to the state property, refused ones
    included, leaves the mirror exactly as the single assignment of the last
    accepted value would (as it was, when none is accepted): the state read
    back is that value, and the three stored normals, the angles, the shape
    and the reflectivity are those the mirror had before the run. *)
Theorem X9_assignments_collapse (dmd : SimpleDMD.t) (values : list string) :
  assign_states dmd values
    = assign_state dmd (last_accepted (SimpleDMD.state dmd) values) /\
  SimpleDMD.state (assign_states dmd values)
    = last_accepted (SimpleDMD.state dmd) values /\
  SimpleDMD._normal_on (assign_states dmd values) = SimpleDMD._normal_on dmd /\
  SimpleDMD._normal_off (assign_states dmd values)
    = SimpleDMD._normal_off dmd /\
  SimpleDMD._normal_flat (assign_states dmd values)
    = SimpleDMD._normal_flat dmd /\
  SimpleDMD._tilt_angle (assign_states dmd values)
    = SimpleDMD._tilt_angle dmd /\
  SimpleDMD._on_direction_angle (assign_states dmd values)
    = SimpleDMD._on_direction_angle dmd /\
  SimpleDMD._off_direction_angle (assign_states dmd values)
    = SimpleDMD._off_direction_angle dmd /\
  SimpleDMD.shape (assign_states dmd values) = SimpleDMD.shape dmd /\
  SimpleDMD.reflectivity (assign_states dmd values)
    = SimpleDMD.reflectivity dmd.
Proof.
  split; [apply assign_states_collapse|].
  split; [apply state_assign_states|].
  rewrite assign_states_collapse.
  set (w := last_accepted (SimpleDMD.state dmd) values).
  destruct (SimpleDMD.in_states w) eqn:Hw.
  - rewrite (assign_state_accepted dmd w Hw). simpl. repeat split.
  - rewrite (assign_state_refused dmd w Hw). repeat split.
Qed.

(** On the sample mirror: of "off", "up", "flat", "ON" the second and the
    fourth are refused and the mirror ends in state "flat". *)
Example sample_run_of_assignments :
  assign_states (sample_dmd "on") ["off"; "up"; "flat"; "ON"]%string
  = sample_dmd "flat".
Proof. vm_compute. reflexivity. Qed.

(** ** OpticalStop: what the aperture can change *)

(** X10: the aperture of a stop only ever removes hits.  The stop's
    intersection is either the inherited plane's result or the NaN sentinel;
    a NO_HIT of the plane stays a NO_HIT; and whenever the stop reports a
    point, it is the plane's point, and that point is not inside the
    aperture shape. *)
Theorem X10_aperture_only_removes_hits
    (P : OpticalStop.t -> Ray -> Vector3d) (self : OpticalStop.t) (r : Ray) :
  (OpticalStop._calculate_intersection P self r = P self r \/
   OpticalStop._calculate_intersection P self r = assign_nan_to_vector3d) /\
  (is_no_hit (P self r) = true ->
     is_no_hit (OpticalStop._calculate_intersection P self r) = true) /\
  (is_no_hit (OpticalStop._calculate_intersection P self r) = false ->
     OpticalStop._calculate_intersection P self r = P self r /\
     OpticalStop.blocked_by_aperture self (P self r) = false).
Proof.
  destruct (OpticalStop.blocked_by_aperture self (P self r)) eqn:Hb.
  - rewrite (stop_intersection_blocked P self r Hb).
    split; [right; reflexivity|]. split.
    + intros _. reflexivity.
    + rewrite is_no_hit_sentinel. discriminate.
  - rewrite (stop_intersection_open P self r Hb).
    split; [left; reflexivity|]. split.
    + intros H. exact H.
    + intros _. split; reflexivity.
Qed.

(** ** The ray tree: depth and lineage *)

Lemma spawns_in_generation (P : OpticalStop.t -> Ray -> Vector3d)
    (k : nat) (a d : Ray) :
  spawns_in P k a d ->
  (INT_MIN <= _parent_cnt a)%Z ->
  (_parent_cnt a + Z.of_nat k <= INT_MAX)%Z ->
  _parent_cnt d = (_parent_cnt a + Z.of_nat k)%Z.
Proof.
  induction 1 as [a | k a b d _ IH Hstep]; intros Hlo Hhi.
  - simpl. lia.
  - assert (Hb : _parent_cnt b = (_parent_cnt a + Z.of_nat k)%Z)
      by (apply IH; lia).
    apply spawns_generation in Hstep. rewrite Hstep.
    rewrite int_add_one; lia.
Qed.

(** X11: while it stays within the C int range, the generation counter
    counts propagate steps.  A ray reached from another by k propagate calls,
    at ideal surfaces or stops in any order, has the generation of that ray
    plus k, provided that ray's generation is a C int and the sum does not
    exceed INT_MAX; so every such chain of calls between the same two rays
    has the same length, and a descendant of a ray of generation 0 carries
    its own depth in the tree. *)
Theorem X11_generation_counts_steps
    (P : OpticalStop.t -> Ray -> Vector3d) (k : nat) (a d : Ray)
    (Hpath : spawns_in P k a d)
    (Hlo : (INT_MIN <= _parent_cnt a)%Z)
    (Hhi : (_parent_cnt a + Z.of_nat k <= INT_MAX)%Z) :
  _parent_cnt d = (_parent_cnt a + Z.of_nat k)%Z /\
  (forall k',
     spawns_in P k' a d -> (_parent_cnt a + Z.of_nat k' <= INT_MAX)%Z ->
     k' = k) /\
  (_parent_cnt a = 0%Z -> _parent_cnt d = Z.of_nat k).
Proof.
  pose proof (spawns_in_generation P k a d Hpath Hlo Hhi) as Hk.
  split; [exact Hk|]. split.
  - intros k' Hpath' Hhi'.
    pose proof (spawns_in_generation P k' a d Hpath' Hlo Hhi') as Hk'. lia.
  - intros Ha. lia.
Qed.

Lemma stopped_once_spawned :
  In stopped_once
     (OpticalStop.propagate Plane_calculate_intersection_z0 stop_with_hole
        ray_off_axis 1 1.5).
Proof. left. vm_compute. reflexivity. Defined.

Lemma stopped_twice_spawned :
  In stopped_twice
     (OpticalStop.propagate Plane_calculate_intersection_z0 full_stop
        stopped_once 1 1.5).
Proof. left. vm_compute. reflexivity. Defined.

Lemma X11_generation_counts_steps_witness :
  _parent_cnt stopped_twice = (_parent_cnt ray_off_axis + Z.of_nat 2)%Z /\
  (forall k',
     spawns_in Plane_calculate_intersection_z0 k' ray_off_axis stopped_twice ->
     (_parent_cnt ray_off_axis + Z.of_nat k' <= INT_MAX)%Z ->
     k' = 2%nat) /\
  (_parent_cnt ray_off_axis = 0%Z -> _parent_cnt stopped_twice = Z.of_nat 2).
Proof.
  apply (X11_generation_counts_steps Plane_calculate_intersection_z0 2
           ray_off_axis stopped_twice).
  - apply (spawns_in_S _ 1 ray_off_axis stopped_once stopped_twice).
    + apply (spawns_in_S _ 0 ray_off_axis ray_off_axis stopped_once).
      * apply spawns_in_O.
      * apply (spawns_stop _ stop_with_hole ray_off_axis 1 1.5).
        exact stopped_once_spawned.
    + apply (spawns_stop _ full_stop stopped_once 1 1.5).
      exact stopped_twice_spawned.
  - vm_compute. discriminate.
  - vm_compute. discriminate.
Defined.

Lemma through_stops_spawns_in (P : OpticalStop.t -> Ray -> Vector3d)
    (k : nat) (a d : Ray) :
  through_stops P k a d -> spawns_in P k a d.
Proof.
  induction 1 as [a | k a b d self ni nr _ IH Hin].
  - apply spawns_in_O.
  - apply (spawns_in_S P k a b d IH).
    apply (spawns_stop P self b ni nr d Hin).
Qed.

(** X12: a ray that has passed k optical stops can be traced back: following
    its parent reference k times leads to the ray that entered the first
    stop.  Along the way the stops change neither direction, wavelength,
    medium index, label, draw colour nor optical path, the generation grows
    by k as long as it stays within the C int range, and after at least one
    stop the intensity is 0. *)
Theorem X12_lineage_through_stops
    (P : OpticalStop.t -> Ray -> Vector3d) (k : nat) (a d : Ray)
    (Hpath : through_stops P k a d) :
  ancestor k d = Some a /\
  _direction d = _direction a /\
  wavelength d = wavelength a /\
  n d = n a /\
  label d = label a /\
  draw_color d = draw_color a /\
  pop d = pop a /\
  ((INT_MIN <= _parent_cnt a)%Z ->
   (_parent_cnt a + Z.of_nat k <= INT_MAX)%Z ->
   _parent_cnt d = (_parent_cnt a + Z.of_nat k)%Z) /\
  (k <> O -> intensity d = 0).
Proof.
  split; [|split; [|split; [|split; [|split; [|split; [|split; [|split]]]]]]];
    try (induction Hpath as [a | k a b d self ni nr _ IH [<- | []]];
         [reflexivity | simpl; exact IH]).
  - apply spawns_in_generation with (P := P).
    apply through_stops_spawns_in, Hpath.
  - destruct Hpath as [a | k a b d self ni nr _ [<- | []]].
    + intros H. contradiction.
    + intros _. reflexivity.
Qed.

Lemma X12_lineage_through_stops_witness :
  ancestor 2 stopped_twice = Some ray_off_axis /\
  _direction stopped_twice = _direction ray_off_axis /\
  wavelength stopped_twice = wavelength ray_off_axis /\
  n stopped_twice = n ray_off_axis /\
  label stopped_twice = label ray_off_axis /\
  draw_color stopped_twice = draw_color ray_off_axis /\
  pop stopped_twice = pop ray_off_axis /\
  ((INT_MIN <= _parent_cnt ray_off_axis)%Z ->
   (_parent_cnt ray_off_axis + Z.of_nat 2 <= INT_MAX)%Z ->
   _parent_cnt stopped_twice = (_parent_cnt ray_off_axis + Z.of_nat 2)%Z) /\
  (2%nat <> O -> intensity stopped_twice = 0).
Proof.
  apply (X12_lineage_through_stops Plane_calculate_intersection_z0 2
           ray_off_axis stopped_twice).
  apply (through_stops_S _ 1 ray_off_axis stopped_once stopped_twice
           full_stop 1 1.5).
  - apply (through_stops_S _ 0 ray_off_axis ray_off_axis stopped_once
             stop_with_hole 1 1.5).
    + apply through_stops_O.
    + exact stopped_once_spawned.
  - exact stopped_twice_spawned.
Defined.

(** ** Sign symmetry of the arithmetic *)

Lemma binary_round_aux_opp (s : bool) (m e : Z) (l : location) :
  binary_round_aux prec emax (negb s) m e l
  = SFopp (binary_round_aux prec emax s m e l).
Proof.
  unfold binary_round_aux.
  destruct (shr_fexp prec emax m e l) as [mrs' e'].
  destruct (shr_fexp prec emax _ e' loc_Exact) as [mrs'' e''].
  destruct (shr_m mrs''); try reflexivity.
  destruct (Z.leb _ _); reflexivity.
Qed.

Lemma SFdiv_opp_l (x y : spec_float) :
  SF64div (SFopp x) y = SFopp (SF64div x y).
Proof.
  unfold SF64div, SFdiv.
  destruct x as [sx|sx| |sx mx ex], y as [sy|sy| |sy my ey];
    cbn [SFopp]; try reflexivity;
    try (destruct sx, sy; reflexivity).
  destruct (SFdiv_core_binary prec emax (Z.pos mx) ex (Z.pos my) ey)
    as [[mz ez] lz].
  rewrite <- binary_round_aux_opp. destruct sx, sy; reflexivity.
Qed.

Lemma SFdiv_opp_r (x y : spec_float) :
  SF64div x (SFopp y) = SFopp (SF64div x y).
Proof.
  unfold SF64div, SFdiv.
  destruct x as [sx|sx| |sx mx ex], y as [sy|sy| |sy my ey];
    cbn [SFopp]; try reflexivity;
    try (destruct sx, sy; reflexivity).
  destruct (SFdiv_core_binary prec emax (Z.pos mx) ex (Z.pos my) ey)
    as [[mz ez] lz].
  rewrite <- binary_round_aux_opp. destruct sx, sy; reflexivity.
Qed.

Lemma SFmul_opp_opp (x y : spec_float) :
  SF64mul (SFopp x) (SFopp y) = SF64mul x y.
Proof.
  unfold SF64mul, SFmul.
  destruct x as [sx|sx| |sx mx ex], y as [sy|sy| |sy my ey];
    cbn [SFopp]; try reflexivity; destruct sx, sy; reflexivity.
Qed.

Lemma div_opp_l (a b : double) : (- a) / b = - (a / b).
Proof.
  apply Prim2SF_inj. rewrite div_spec, !opp_spec, div_spec.
  apply SFdiv_opp_l.
Qed.

Lemma div_opp_r (a b : double) : a / (- b) = - (a / b).
Proof.
  apply Prim2SF_inj. rewrite div_spec, !opp_spec, div_spec.
  apply SFdiv_opp_r.
Qed.

Lemma mul_opp_opp (a b : double) : (- a) * (- b) = a * b.
Proof.
  apply Prim2SF_inj. rewrite !mul_spec, !opp_spec. apply SFmul_opp_opp.
Qed.

Lemma eqb_opp_zero (a : double) : (- a =? 0) = (a =? 0).
Proof.
  rewrite !eqb_spec, opp_spec. change (Prim2SF 0) with (S754_zero false).
  destruct (Prim2SF a) as [s|s| |s m e]; try destruct s; reflexivity.
Qed.

(** ** IdealSurface: the intersection is that of the whole line *)

Lemma intersection_parameter_reversed (r : Ray) :
  intersection_parameter (reversed r) = - intersection_parameter r.
Proof. unfold intersection_parameter, reversed. simpl. apply div_opp_r. Qed.

Lemma calculate_intersection_reversed (self : IdealSurface.t) (r : Ray) :
  IdealSurface._calculate_intersection self (reversed r)
  = IdealSurface._calculate_intersection self r.
Proof.
  rewrite !calculate_intersection_eq, intersection_parameter_reversed.
  unfold reversed at 1. simpl c2. rewrite eqb_opp_zero.
  destruct (c2 (_direction r) =? 0); [reflexivity|].
  unfold point_at, reversed. simpl. rewrite !mul_opp_opp. reflexivity.
Qed.

(** X13: [IdealSurface._calculate_intersection] intersects the whole line of
    the ray, not the half-line ahead of it: a ray and the ray with the
    opposite direction from the same origin are given exactly the same
    result (the same point, or the sentinel for both), their intersection
    parameters being opposite. *)
Theorem X13_intersection_ignores_orientation (self : IdealSurface.t)
    (r : Ray) :
  IdealSurface._calculate_intersection self (reversed r)
    = IdealSurface._calculate_intersection self r /\
  intersection_parameter (reversed r) = - intersection_parameter r.
Proof.
  split; [apply calculate_intersection_reversed|].
  apply intersection_parameter_reversed.
Qed.

(** An instance: towards the plane from z = -10 and away from it. *)
Example both_orientations_meet_the_plane :
  IdealSurface._calculate_intersection (ideal_lens 0) ray_off_axis
    = Return (mkVector3d 5 0 0) /\
  IdealSurface._calculate_intersection (ideal_lens 0) (reversed ray_off_axis)
    = Return (mkVector3d 5 0 0) /\
  hit_point (ideal_lens 0) ray_off_axis = Return (mkVector3d 5 0 0) /\
  hit_point (ideal_lens 0) (reversed ray_off_axis)
    = Return assign_nan_to_vector3d.
Proof. repeat split; vm_compute; reflexivity. Qed.

(** ** Doubles up to the sign of zero *)

Lemma same_SFsame (a b : double) :
  same a b <-> SFsame (Prim2SF a) (Prim2SF b).
Proof.
  unfold same, SFsame. split.
  - intros [-> | [Ha Hb]]; [left; reflexivity|].
    apply eqb_zero_Prim2SF in Ha. apply eqb_zero_Prim2SF in Hb.
    destruct Ha as [s Ha], Hb as [s' Hb]. right. eauto.
  - intros [E | (s & s' & Ha & Hb)].
    + left. apply Prim2SF_inj, E.
    + right. split; apply eqb_zero_iff; eauto.
Qed.

Lemma same_agree (a b : double) : same a b -> agree a b = true.
Proof.
  unfold agree. intros [-> | [Ha Hb]].
  - unfold is_nan. destruct (b =? b); reflexivity.
  - apply eqb_zero_Prim2SF in Ha. apply eqb_zero_Prim2SF in Hb.
    destruct Ha as [s Ha], Hb as [s' Hb].
    rewrite eqb_spec, Ha, Hb. reflexivity.
Qed.

Lemma vsame_agree (u v : Vector3d) : vsame u v -> directions_agree u v = true.
Proof.
  intros (H0 & H1 & H2). unfold directions_agree.
  rewrite (same_agree _ _ H0), (same_agree _ _ H1), (same_agree _ _ H2).
  reflexivity.
Qed.

Lemma SFmul_same (x x' y y' : spec_float) :
  SFsame x x' -> SFsame y y' -> SFsame (SF64mul x y) (SF64mul x' y').
Proof.
  unfold SF64mul, SFmul.
  intros [-> | (s & s' & -> & ->)] [-> | (t & t' & -> & ->)].
  - left. reflexivity.
  - destruct x' as [sx|sx| |sx mx ex];
      solve [left; reflexivity | right; eauto].
  - destruct y' as [sy|sy| |sy my ey];
      solve [left; reflexivity | right; eauto].
  - right. eauto.
Qed.

Lemma SFadd_same (x x' y y' : spec_float) :
  SFsame x x' -> SFsame y y' -> SFsame (SF64add x y) (SF64add x' y').
Proof.
  unfold SF64add, SFadd.
  intros [-> | (s & s' & -> & ->)] [-> | (t & t' & -> & ->)].
  - left. reflexivity.
  - destruct x' as [sx|sx| |sx mx ex];
      try solve [left; reflexivity].
    destruct sx, t, t'; right; eauto.
  - destruct y' as [sy|sy| |sy my ey];
      try solve [left; reflexivity].
    destruct sy, s, s'; right; eauto.
  - destruct s, s', t, t'; right; eauto.
Qed.

Lemma SFdiv_same_l (x x' y : spec_float) :
  SFsame x x' -> SFsame (SF64div x y) (SF64div x' y).
Proof.
  unfold SF64div, SFdiv.
  intros [-> | (s & s' & -> & ->)]; [left; reflexivity|].
  destruct y as [sy|sy| |sy my ey];
    solve [left; reflexivity | right; eauto].
Qed.

Lemma mul_same (a a' b b' : double) :
  same a a' -> same b b' -> same (a * b) (a' * b').
Proof.
  rewrite !same_SFsame, !mul_spec. apply SFmul_same.
Qed.

Lemma add_same (a a' b b' : double) :
  same a a' -> same b b' -> same (a + b) (a' + b').
Proof.
  rewrite !same_SFsame, !add_spec. apply SFadd_same.
Qed.

Lemma div_same_l (a a' b : double) : same a a' -> same (a / b) (a' / b).
Proof.
  rewrite !same_SFsame, !div_spec. apply SFdiv_same_l.
Qed.

Lemma zero_not_positive (z : double) : (z =? 0) = true -> (0 <? z) = false.
Proof. intros Hz. apply (eqb_ltb z 0 Hz). Qed.

Lemma squaredNorm_same (u v : Vector3d) :
  vsame u v -> same (squaredNorm u) (squaredNorm v).
Proof.
  intros (H0 & H1 & H2). unfold squaredNorm.
  repeat apply add_same; apply mul_same; assumption.
Qed.

Lemma normalize_same (u v : Vector3d) :
  vsame u v -> vsame (normalize u) (normalize v).
Proof.
  intros Huv. pose proof (squaredNorm_same u v Huv) as Hz.
  destruct Huv as (H0 & H1 & H2).
  unfold normalize. destruct Hz as [-> | [Hzu Hzv]].
  - destruct (0 <? squaredNorm v).
    + repeat split; simpl; apply div_same_l; assumption.
    + repeat split; assumption.
  - rewrite (zero_not_positive _ Hzu), (zero_not_positive _ Hzv).
    repeat split; assumption.
Qed.

Lemma binary_round_opp (s : bool) (m : positive) (e : Z) :
  binary_round prec emax (negb s) m e = SFopp (binary_round prec emax s m e).
Proof.
  unfold binary_round.
  destruct (shl_align m e _) as [mz ez].
  apply binary_round_aux_opp.
Qed.

Lemma binary_normalize_opp (m e : Z) :
  SFsame (SFopp (binary_normalize prec emax m e false))
         (binary_normalize prec emax (- m) e false).
Proof.
  destruct m as [|q|q]; unfold binary_normalize; cbn [Z.opp].
  - right. exists true, false. split; reflexivity.
  - left. symmetry. apply (binary_round_opp false).
  - left. rewrite (binary_round_opp true). destruct (binary_round _ _ _ _ _);
      cbn [SFopp]; rewrite ?negb_involutive; reflexivity.
Qed.

Lemma SFopp_sub (x y : spec_float) :
  SFsame (SFopp (SF64sub x y)) (SF64sub y x).
Proof.
  unfold SF64sub, SFsub.
  destruct x as [sx|sx| |sx mx ex], y as [sy|sy| |sy my ey];
    cbn [SFopp];
    try solve [left; reflexivity
              | destruct sx, sy; solve [left; reflexivity | right; eauto]
              | destruct sx; left; reflexivity
              | destruct sy; left; reflexivity].
  - destruct sx, sy; cbn [SFopp]; right; eauto.
  - cbv zeta.
    replace (IntDef.Z.min ey ex) with (IntDef.Z.min ex ey)
      by apply Z.min_comm.
    set (A := cond_Zopp sx _). set (B := cond_Zopp sy _).
    replace (B - A)%Z with (- (A - B))%Z by lia.
    apply binary_normalize_opp.
Qed.

Lemma opp_sub (a b : double) : same (- (a - b)) (b - a).
Proof.
  rewrite same_SFsame, opp_spec, !sub_spec. apply SFopp_sub.
Qed.

Lemma vopp_vsub (a b : Vector3d) : vsame (vopp (vsub a b)) (vsub b a).
Proof. unfold vsame, vopp, vsub. simpl. repeat split; apply opp_sub. Qed.

Lemma squaredNorm_vopp (v : Vector3d) : squaredNorm (vopp v) = squaredNorm v.
Proof. unfold squaredNorm, vopp. simpl. rewrite !mul_opp_opp. reflexivity. Qed.

Lemma normalize_vopp (v : Vector3d) : normalize (vopp v) = vopp (normalize v).
Proof.
  unfold normalize. rewrite squaredNorm_vopp.
  destruct (0 <? squaredNorm v); [|reflexivity].
  unfold vopp. simpl. rewrite !div_opp_l. reflexivity.
Qed.

Lemma same_sym (a b : double) : same a b -> same b a.
Proof. unfold same. intros [-> | [Ha Hb]]; auto. Qed.

Lemma vsame_sym (u v : Vector3d) : vsame u v -> vsame v u.
Proof. intros (H0 & H1 & H2). repeat split; apply same_sym; assumption. Qed.

(** ** IdealSurface: the two directions of a beam split *)

Lemma directions_negative_focal (self : IdealSurface.t) (ray : Ray)
    (p : Vector3d) :
  (IdealSurface.f self <? 0) = true ->
  vsame (transmitted_direction self ray p) (reflected_direction self ray p).
Proof.
  intros Hf. unfold transmitted_direction, reflected_direction.
  cbv zeta. rewrite Hf. apply normalize_same, vopp_vsub.
Qed.

Lemma directions_other_focal (self : IdealSurface.t) (ray : Ray)
    (p : Vector3d) :
  (IdealSurface.f self <? 0) = false ->
  vsame (reflected_direction self ray p)
        (vopp (transmitted_direction self ray p)).
Proof.
  intros Hf. unfold transmitted_direction, reflected_direction.
  cbv zeta. rewrite Hf, <- normalize_vopp.
  apply normalize_same, vsame_sym, vopp_vsub.
Qed.

(** The only call that returns two rays. *)
Lemma propagate_two_children (self : IdealSurface.t) (ray : Ray)
    (ni nr : double) (t r : Ray) :
  IdealSurface.propagate self ray ni nr = Return [t; r] ->
  exists p,
    _direction t = transmitted_direction self ray p /\
    _direction r = reflected_direction self ray p.
Proof.
  destruct (hit_point_returns self ray) as [p Hp].
  destruct (is_no_hit p) eqn:Hnan.
  { rewrite (propagate_no_hit self ray ni nr p Hp Hnan). discriminate. }
  destruct (c2 (_direction ray) =? 0) eqn:Hrz.
  { rewrite (propagate_parallel self ray ni nr Hrz). discriminate. }
  rewrite (propagate_on_hit self ray ni nr p Hp Hnan Hrz). cbv zeta.
  generalize (reflectivity_at self ray). intros R.
  destruct ((1 <? R) || (R <? 0)); [discriminate|].
  destruct (R =? 0); [discriminate|].
  destruct (R =? 1); [discriminate|].
  intros [= <- <-]. exists p. split; reflexivity.
Qed.

(** X14: on a surface of negative focal length the two children of a beam
    split leave in the same direction: whenever propagate returns a
    transmitted and a reflected ray, each coordinate of the reflected ray's
    direction agrees with that of the transmitted ray's (they compare equal,
    or both are NaN). *)
Theorem X14_negative_focal_length_same_direction (self : IdealSurface.t)
    (ray : Ray) (ni nr : double) (t r : Ray)
    (Hcall : IdealSurface.propagate self ray ni nr = Return [t; r])
    (Hf : (IdealSurface.f self <? 0) = true) :
  directions_agree (_direction t) (_direction r) = true.
Proof.
  destruct (propagate_two_children self ray ni nr t r Hcall) as (p & -> & ->).
  apply vsame_agree, directions_negative_focal, Hf.
Qed.

Lemma X14_negative_focal_length_same_direction_witness :
  directions_agree
    (transmitted_direction (diverging_lens 0.5) ray_off_axis
       (mkVector3d 5 0 0))
    (reflected_direction (diverging_lens 0.5) ray_off_axis
       (mkVector3d 5 0 0)) = true.
Proof.
  apply (X14_negative_focal_length_same_direction (diverging_lens 0.5)
           ray_off_axis 1 1.5
           (ideal_child (diverging_lens 0.5) ray_off_axis (mkVector3d 5 0 0)
              (transmitted_direction (diverging_lens 0.5) ray_off_axis
                 (mkVector3d 5 0 0)) (1 * (1 - 0.5)) 1.5)
           (ideal_child (diverging_lens 0.5) ray_off_axis (mkVector3d 5 0 0)
              (reflected_direction (diverging_lens 0.5) ray_off_axis
                 (mkVector3d 5 0 0)) (1 * 0.5) 1));
    vm_compute; reflexivity.
Defined.

(** X15: on a surface whose focal length is not negative the two children of
    a beam split leave in opposite directions: whenever propagate returns a
    transmitted and a reflected ray, each coordinate of the reflected ray's
    direction agrees with the negated coordinate of the transmitted ray's. *)
Theorem X15_reflected_opposes_transmitted (self : IdealSurface.t)
    (ray : Ray) (ni nr : double) (t r : Ray)
    (Hcall : IdealSurface.propagate self ray ni nr = Return [t; r])
    (Hf : (IdealSurface.f self <? 0) = false) :
  directions_agree (_direction r) (vopp (_direction t)) = true.
Proof.
  destruct (propagate_two_children self ray ni nr t r Hcall) as (p & -> & ->).
  apply vsame_agree, directions_other_focal, Hf.
Qed.

Lemma X15_reflected_opposes_transmitted_witness :
  directions_agree
    (reflected_direction (ideal_lens 0.5) ray_off_axis (mkVector3d 5 0 0))
    (vopp (transmitted_direction (ideal_lens 0.5) ray_off_axis
             (mkVector3d 5 0 0))) = true.
Proof.
  apply (X15_reflected_opposes_transmitted (ideal_lens 0.5)
           ray_off_axis 1 1.5
           (ideal_child (ideal_lens 0.5) ray_off_axis (mkVector3d 5 0 0)
              (transmitted_direction (ideal_lens 0.5) ray_off_axis
                 (mkVector3d 5 0 0)) (1 * (1 - 0.5)) 1.5)
           (ideal_child (ideal_lens 0.5) ray_off_axis (mkVector3d 5 0 0)
              (reflected_direction (ideal_lens 0.5) ray_off_axis
                 (mkVector3d 5 0 0)) (1 * 0.5) 1));
    vm_compute; reflexivity.
Defined.

(** The constructor on a label in the wrong case. *)
Example constructor_refuses_upper_case :
  SimpleDMD.__init__ sin_poly cos_poly 0.25 0 3 "ON" None = Raise ValueError.
Proof. vm_compute. reflexivity. Qed.
